(** * Dishwashing pipeline: sequential baseline and four-stage threaded pipeline

    A shallow embedding of [sequential_dishwashing.py] and
    [parallel_dishwashing.py].

    - Dish objects live in a store (a list indexed by object reference); the
      queues, the completed list and the workers' local variable [dish] hold
      references into that store, as the Python objects are shared.
    - The threaded pipeline is an interleaving semantics: one deterministic
      step function per thread (the coordinator running [process_parallel] and
      the four stage workers), driven by a schedule that names the thread that
      moves next.  A thread that is blocked, not started or finished does not
      move when it is scheduled.
    - Wall-clock time is not modelled.  [time.sleep] is a step of its own that
      changes nothing, the timeouts of [Queue.get] and [Thread.join] fire
      whenever the schedule lets the waiting thread move, and the elapsed time
      used by the metrics is an input.  Float values are exact rationals; the
      only float behaviour that matters here, whether a division raises
      [ZeroDivisionError], depends on the divisor being zero alone. *)

From Stdlib Require Import ZArith QArith Lia Lqa.
From stdpp Require Import base tactics option list functions strings.

Local Open Scope string_scope.
Local Open Scope list_scope.
Local Open Scope nat_scope.

(** ** Dishes *)

Record Dish := mkDish {
  dish_id : nat;
  dish_type : string;
  status : string
}.

(** [Dish.__init__]: every dish is created dirty. *)
Definition Dish_init (dish_id : nat) (dish_type : string) : Dish :=
  {| dish_id := dish_id; dish_type := dish_type; status := "dirty" |}.

(** [dish.status = v] *)
Definition with_status (v : string) (d : Dish) : Dish :=
  {| dish_id := dish_id d; dish_type := dish_type d; status := v |}.

(** The five status strings, in the order the stages write them. *)
Definition lifecycle : list string :=
  ["dirty"; "pre-rinsed"; "washed"; "dried"; "stored"].

(** ** Stages *)

Inductive stage := PreRinse | Wash | Dry | Store.

#[global] Instance stage_eq_dec : EqDecision stage.
Proof. solve_decision. Defined.

Definition stage_index (k : stage) : nat :=
  match k with PreRinse => 0 | Wash => 1 | Dry => 2 | Store => 3 end.

(** The string each worker assigns to [dish.status]. *)
Definition target_status (k : stage) : string :=
  match k with
  | PreRinse => "pre-rinsed"
  | Wash => "washed"
  | Dry => "dried"
  | Store => "stored"
  end.

(** The queue a worker puts into; the store worker appends to
    [completed_dishes] instead. *)
Definition next_stage (k : stage) : option stage :=
  match k with
  | PreRinse => Some Wash
  | Wash => Some Dry
  | Dry => Some Store
  | Store => None
  end.

Definition all_stages : list stage := [PreRinse; Wash; Dry; Store].

(** ** [queue.Queue] (Python standard library)

    An unbounded FIFO with the task counter behind [task_done] and [join]. *)

Record Queue := mkQueue {
  queue : list nat;
  unfinished_tasks : Z
}.

Definition Queue_new : Queue := {| queue := []; unfinished_tasks := 0 |}.

(** [put(item)]: append and count one more unfinished task. *)
Definition Queue_put (q : Queue) (item : nat) : Queue :=
  {| queue := queue q ++ [item]; unfinished_tasks := (unfinished_tasks q + 1)%Z |}.

(** [get(timeout=...)]: the head of the queue, or [None] for [Empty]. *)
Definition Queue_get (q : Queue) : option (nat * Queue) :=
  match queue q with
  | [] => None
  | item :: rest =>
      Some (item, {| queue := rest; unfinished_tasks := unfinished_tasks q |})
  end.

(** [task_done()]: one task less; [None] stands for the [ValueError] raised
    when it is called more often than [put]. *)
Definition Queue_task_done (q : Queue) : option Queue :=
  let unfinished := (unfinished_tasks q - 1)%Z in
  if (unfinished <? 0)%Z then None
  else Some {| queue := queue q; unfinished_tasks := unfinished |}.

(** [join()] returns once the counter of unfinished tasks is zero. *)
Definition Queue_join_ready (q : Queue) : bool :=
  (unfinished_tasks q =? 0)%Z.

(** ** Threads *)

(** Where a stage worker stands in its loop. *)
Inductive wpc :=
| WNew                (* Thread object created, not started *)
| WLoop               (* at [while not self.stop_event.is_set()] *)
| WGet                (* at [dish = self.queue_k.get(timeout=0.1)] *)
| WSleep (dish : nat) (* at [time.sleep(self._simulate_processing_time())] *)
| WStatus (dish : nat)   (* at [dish.status = ...] *)
| WPut (dish : nat)      (* at [self.queue_k'.put(dish)], or the append *)
| WTaskDone (dish : nat) (* at [self.queue_k.task_done()] *)
| WExit               (* the loop was left, the thread is over *)
| WError.             (* the thread died of an uncaught exception *)

(** Where the coordinator stands in [process_parallel]. *)
Inductive cpc :=
| CStart (k : stage)   (* at [thread.start()] for the worker of stage [k] *)
| CFeed (idx : nat)    (* at the head of the feeding loop, [idx] dishes queued *)
| CQJoin (k : stage)   (* at [self.queue_k.join()] *)
| CStop                (* at [self.stop_event.set()] *)
| CTJoin (k : stage)   (* at [thread.join(timeout=1.0)] *)
| CLen                 (* at [dishes_completed = len(self.completed_dishes)] *)
| CDone (dishes_completed : nat).

Inductive tid := Coordinator | Worker (k : stage).

(** ** State of a [ParallelDishwasher] during [process_parallel] *)

Record state := mkState {
  dishes : list Dish;            (* the store; [self.dishes] is [0, 1, ...] *)
  queues : stage → Queue;        (* queue_1 .. queue_4 *)
  completed_dishes : list nat;
  stop_event : bool;
  workers : stage → wpc;
  coord : cpc
}.

Definition queue_1 (s : state) : Queue := queues s PreRinse.
Definition queue_2 (s : state) : Queue := queues s Wash.
Definition queue_3 (s : state) : Queue := queues s Dry.
Definition queue_4 (s : state) : Queue := queues s Store.

Definition set_queue (k : stage) (q : Queue) (s : state) : state :=
  {| dishes := dishes s; queues := <[k := q]> (queues s);
     completed_dishes := completed_dishes s; stop_event := stop_event s;
     workers := workers s; coord := coord s |}.

Definition set_worker (k : stage) (pc : wpc) (s : state) : state :=
  {| dishes := dishes s; queues := queues s;
     completed_dishes := completed_dishes s; stop_event := stop_event s;
     workers := <[k := pc]> (workers s); coord := coord s |}.

Definition set_coord (pc : cpc) (s : state) : state :=
  {| dishes := dishes s; queues := queues s;
     completed_dishes := completed_dishes s; stop_event := stop_event s;
     workers := workers s; coord := pc |}.

Definition set_dish_status (dish : nat) (v : string) (s : state) : state :=
  {| dishes := alter (with_status v) dish (dishes s); queues := queues s;
     completed_dishes := completed_dishes s; stop_event := stop_event s;
     workers := workers s; coord := coord s |}.

Definition append_completed (dish : nat) (s : state) : state :=
  {| dishes := dishes s; queues := queues s;
     completed_dishes := completed_dishes s ++ [dish];
     stop_event := stop_event s; workers := workers s; coord := coord s |}.

Definition set_stop_event (s : state) : state :=
  {| dishes := dishes s; queues := queues s;
     completed_dishes := completed_dishes s; stop_event := true;
     workers := workers s; coord := coord s |}.

(** [ParallelDishwasher.__init__] after the dishes were generated, and the
    four [Thread] objects of [process_parallel]. *)
Definition init (ds : list Dish) : state :=
  {| dishes := ds; queues := λ _, Queue_new; completed_dishes := [];
     stop_event := false; workers := λ _, WNew; coord := CStart PreRinse |}.

(** ** Events: what a step does, for the history of a run *)

Inductive event :=
| EvStart (k : stage)                 (* thread.start() *)
| EvPut (k : stage) (dish : nat)      (* queue_k.put(dish) *)
| EvGet (k : stage) (dish : nat)      (* queue_k.get returned dish *)
| EvEmpty (k : stage)                 (* queue_k.get raised Empty *)
| EvStatus (k : stage) (dish : nat) (v : string) (* worker k: dish.status = v *)
| EvAppend (dish : nat)               (* completed_dishes.append(dish) *)
| EvTaskDone (k : stage) (dish : nat) (* queue_k.task_done(), after dish *)
| EvQJoin (k : stage)                 (* queue_k.join() returned *)
| EvStop                              (* stop_event.set() *)
| EvTJoin (k : stage)                 (* thread.join(timeout=1.0) returned *)
| EvExit (k : stage)                  (* worker k left its loop *)
| EvError (k : stage).                (* worker k died of ValueError *)

(** ** The stage workers

    [worker_pre_rinse], [worker_wash], [worker_dry] and [worker_store] are the
    same loop over (input queue, output, status string). *)
Definition worker_step (k : stage) (s : state) : option (list event * state) :=
  match workers s k with
  | WNew | WExit | WError => None
  | WLoop =>
      if stop_event s then Some ([EvExit k], set_worker k WExit s)
      else Some ([], set_worker k WGet s)
  | WGet =>
      match Queue_get (queues s k) with
      | Some (dish, q') =>
          Some ([EvGet k dish], set_worker k (WSleep dish) (set_queue k q' s))
      | None => Some ([EvEmpty k], set_worker k WLoop s)
      end
  | WSleep dish => Some ([], set_worker k (WStatus dish) s)
  | WStatus dish =>
      Some ([EvStatus k dish (target_status k)],
            set_worker k (WPut dish) (set_dish_status dish (target_status k) s))
  | WPut dish =>
      match next_stage k with
      | Some k' =>
          Some ([EvPut k' dish],
                set_worker k (WTaskDone dish)
                  (set_queue k' (Queue_put (queues s k') dish) s))
      | None =>
          (* with self.completion_lock: self.completed_dishes.append(dish) *)
          Some ([EvAppend dish],
                set_worker k (WTaskDone dish) (append_completed dish s))
      end
  | WTaskDone dish =>
      match Queue_task_done (queues s k) with
      | Some q' =>
          Some ([EvTaskDone k dish], set_worker k WLoop (set_queue k q' s))
      | None => Some ([EvError k], set_worker k WError s)
      end
  end.

Definition worker_pre_rinse : state → option (list event * state) :=
  worker_step PreRinse.
Definition worker_wash : state → option (list event * state) :=
  worker_step Wash.
Definition worker_dry : state → option (list event * state) :=
  worker_step Dry.
Definition worker_store : state → option (list event * state) :=
  worker_step Store.

(** ** The coordinator: [process_parallel] up to the reading of
    [len(self.completed_dishes)] *)
Definition coord_step (s : state) : option (list event * state) :=
  match coord s with
  | CStart k =>
      Some ([EvStart k],
            set_coord (match next_stage k with
                       | Some k' => CStart k'
                       | None => CFeed 0
                       end) (set_worker k WLoop s))
  | CFeed idx =>
      match dishes s !! idx with
      | Some _ =>
          Some ([EvPut PreRinse idx],
                set_coord (CFeed (S idx))
                  (set_queue PreRinse (Queue_put (queues s PreRinse) idx) s))
      | None => Some ([], set_coord (CQJoin PreRinse) s)
      end
  | CQJoin k =>
      if Queue_join_ready (queues s k) then
        Some ([EvQJoin k],
              set_coord (match next_stage k with
                         | Some k' => CQJoin k'
                         | None => CStop
                         end) s)
      else None
  | CStop => Some ([EvStop], set_coord (CTJoin PreRinse) (set_stop_event s))
  | CTJoin k =>
      (* returns when the worker is over or after the timeout, whichever
         comes first: it never blocks for good *)
      Some ([EvTJoin k],
            set_coord (match next_stage k with
                       | Some k' => CTJoin k'
                       | None => CLen
                       end) s)
  | CLen => Some ([], set_coord (CDone (length (completed_dishes s))) s)
  | CDone _ => None
  end.

Definition step (t : tid) (s : state) : option (list event * state) :=
  match t with
  | Coordinator => coord_step s
  | Worker k =>
      match k with
      | PreRinse => worker_pre_rinse s
      | Wash => worker_wash s
      | Dry => worker_dry s
      | Store => worker_store s
      end
  end.

(** A configuration is a state with the history of events that led to it. *)
Definition config : Type := state * list event.

Definition sched_step (c : config) (t : tid) : config :=
  match step t (fst c) with
  | Some (evs, s') => (s', snd c ++ evs)
  | None => c
  end.

(** Running a schedule: a left fold of [sched_step]. *)
Definition exec (sched : list tid) (c : config) : config :=
  fold_left sched_step sched c.

(** The run of [process_parallel] on the dishes [ds] under [sched]. *)
Definition run (ds : list Dish) (sched : list tid) : config :=
  exec sched (init ds, []).

Definition final (ds : list Dish) (sched : list tid) : state :=
  fst (run ds sched).

Definition history (ds : list Dish) (sched : list tid) : list event :=
  snd (run ds sched).

(** Schedules used in the examples: every thread in turn, [rounds] times. *)
Definition round : list tid :=
  [Coordinator; Worker PreRinse; Worker Wash; Worker Dry; Worker Store].

Fixpoint round_robin (rounds : nat) : list tid :=
  match rounds with
  | 0 => []
  | S r => round ++ round_robin r
  end.

(** ** Histories read off the events *)

(** The dishes put into [queue_k], in order. *)
Definition enqueued (k : stage) (tr : list event) : list nat :=
  omap (λ e, match e with
             | EvPut k' d => if decide (k' = k) then Some d else None
             | _ => None
             end) tr.

(** The dishes [queue_k.get] returned, in order. *)
Definition dequeued (k : stage) (tr : list event) : list nat :=
  omap (λ e, match e with
             | EvGet k' d => if decide (k' = k) then Some d else None
             | _ => None
             end) tr.

(** The dishes after which [queue_k.task_done()] was called, in order. *)
Definition acknowledged (k : stage) (tr : list event) : list nat :=
  omap (λ e, match e with
             | EvTaskDone k' d => if decide (k' = k) then Some d else None
             | _ => None
             end) tr.

(** The dishes appended to [completed_dishes], in order. *)
Definition appended (tr : list event) : list nat :=
  omap (λ e, match e with EvAppend d => Some d | _ => None end) tr.

(** The dishes whose status the worker of stage [k] has assigned. *)
Definition status_set (k : stage) (tr : list event) : list nat :=
  omap (λ e, match e with
             | EvStatus k' d _ => if decide (k' = k) then Some d else None
             | _ => None
             end) tr.

(** The dishes the worker of stage [k] has passed to its output. *)
Definition handed_on (k : stage) (tr : list event) : list nat :=
  match next_stage k with
  | Some k' => enqueued k' tr
  | None => appended tr
  end.

(** The values assigned to the status of dish [d], in order. *)
Definition status_writes (d : nat) (tr : list event) : list string :=
  omap (λ e, match e with
             | EvStatus _ d' v => if decide (d' = d) then Some v else None
             | _ => None
             end) tr.

(** The events of worker [k], without the polls that found the queue empty. *)
Definition worker_event (k : stage) (e : event) : bool :=
  match e with
  | EvGet k' _ | EvStatus k' _ _ | EvTaskDone k' _ => bool_decide (k' = k)
  | EvPut k' _ => bool_decide (next_stage k = Some k')
  | EvAppend _ => bool_decide (next_stage k = None)
  | _ => false
  end.

Definition worker_events (k : stage) (tr : list event) : list event :=
  filter (λ e, worker_event k e = true) tr.

(** What the worker of stage [k] does with one dish it has got. *)
Definition hand_on_event (k : stage) (d : nat) : event :=
  match next_stage k with
  | Some k' => EvPut k' d
  | None => EvAppend d
  end.

Definition cycle (k : stage) (d : nat) : list event :=
  [EvGet k d; EvStatus k d (target_status k); hand_on_event k d;
   EvTaskDone k d].

(** The part of the cycle a worker has behind it at a point of its loop. *)
Definition partial_cycle (k : stage) (pc : wpc) : list event :=
  match pc with
  | WSleep d | WStatus d => [EvGet k d]
  | WPut d => [EvGet k d; EvStatus k d (target_status k)]
  | WTaskDone d =>
      [EvGet k d; EvStatus k d (target_status k); hand_on_event k d]
  | _ => []
  end.

(** The events of the coordinator. *)
Definition coordinator_event (e : event) : bool :=
  match e with
  | EvStart _ | EvPut PreRinse _ | EvQJoin _ | EvStop | EvTJoin _ => true
  | _ => false
  end.

Definition coordinator_events (tr : list event) : list event :=
  filter (λ e, coordinator_event e = true) tr.

(** [process_parallel] from the first [thread.start()] to the last
    [thread.join], for [n] dishes. *)
Definition coord_script (n : nat) : list event :=
  (EvStart <$> all_stages) ++ (EvPut PreRinse <$> seq 0 n) ++
  (EvQJoin <$> all_stages) ++ [EvStop] ++ (EvTJoin <$> all_stages).

(** What the coordinator has done when it stands at [pc]. *)
Definition coord_history (n : nat) (pc : cpc) : list event :=
  match pc with
  | CStart k => EvStart <$> take (stage_index k) all_stages
  | CFeed idx => (EvStart <$> all_stages) ++ (EvPut PreRinse <$> seq 0 idx)
  | CQJoin k =>
      (EvStart <$> all_stages) ++ (EvPut PreRinse <$> seq 0 n) ++
      (EvQJoin <$> take (stage_index k) all_stages)
  | CStop =>
      (EvStart <$> all_stages) ++ (EvPut PreRinse <$> seq 0 n) ++
      (EvQJoin <$> all_stages)
  | CTJoin k =>
      (EvStart <$> all_stages) ++ (EvPut PreRinse <$> seq 0 n) ++
      (EvQJoin <$> all_stages) ++ [EvStop] ++
      (EvTJoin <$> take (stage_index k) all_stages)
  | CLen | CDone _ => coord_script n
  end.

(** ** Invariants of the pipeline *)

(** The dish a worker holds and has not passed on yet. *)
Definition held (pc : wpc) : list nat :=
  match pc with
  | WSleep d | WStatus d | WPut d => [d]
  | _ => []
  end.

(** The dish a worker has passed on and not acknowledged yet. *)
Definition acking (pc : wpc) : list nat :=
  match pc with WTaskDone d => [d] | _ => [] end.

(** The dish whose status is written and which is not passed on yet. *)
Definition putting (pc : wpc) : list nat :=
  match pc with WPut d => [d] | _ => [] end.

(** How many dishes the coordinator has put into [queue_1]. *)
Definition fed (n : nat) (pc : cpc) : nat :=
  match pc with
  | CStart _ => 0
  | CFeed idx => idx
  | _ => n
  end.

(** [queue_k.join()] has returned. *)
Definition drained (pc : cpc) (k : stage) : bool :=
  match pc with
  | CStart _ | CFeed _ => false
  | CQJoin k' => stage_index k <? stage_index k'
  | _ => true
  end.

(** [stop_event.set()] has been executed. *)
Definition stopped (pc : cpc) : bool :=
  match pc with
  | CTJoin _ | CLen | CDone _ => true
  | _ => false
  end.

(** The worker of stage [k] has been started. *)
Definition started (pc : cpc) (k : stage) : bool :=
  match pc with
  | CStart k' => stage_index k <? stage_index k'
  | _ => true
  end.

(** Flow of the dishes: every queue is FIFO, every worker hands on what it
    got, in order, and acknowledges what it handed on. *)
Record FlowInv (ds : list Dish) (c : config) : Prop := {
  flow_len : length (dishes c.1) = length ds;
  flow_queue : ∀ k, enqueued k c.2 = dequeued k c.2 ++ queue (queues c.1 k);
  flow_worker : ∀ k, dequeued k c.2 = handed_on k c.2 ++ held (workers c.1 k);
  flow_ack : ∀ k,
    handed_on k c.2 = acknowledged k c.2 ++ acking (workers c.1 k);
  flow_status : ∀ k,
    status_set k c.2 = handed_on k c.2 ++ putting (workers c.1 k);
  flow_count : ∀ k,
    unfinished_tasks (queues c.1 k) =
    (Z.of_nat (length (enqueued k c.2)) -
     Z.of_nat (length (acknowledged k c.2)))%Z;
  flow_completed : completed_dishes c.1 = appended c.2;
  flow_fed : enqueued PreRinse c.2 = seq 0 (fed (length ds) (coord c.1));
  flow_fed_le : fed (length ds) (coord c.1) ≤ length ds;
  flow_started : ∀ k, workers c.1 k = WNew ↔ started (coord c.1) k = false
}.

(** Control: the stop flag, the threads and the joins. *)
Record CtlInv (ds : list Dish) (c : config) : Prop := {
  ctl_stop : stop_event c.1 = stopped (coord c.1);
  ctl_exit : ∀ k, workers c.1 k = WExit → stop_event c.1 = true;
  ctl_noerr : ∀ k, workers c.1 k ≠ WError;
  ctl_drained : ∀ k,
    drained (coord c.1) k = true → unfinished_tasks (queues c.1 k) = 0%Z;
  ctl_done : ∀ n, coord c.1 = CDone n → n = length ds;
  ctl_coord : coordinator_events c.2 = coord_history (length ds) (coord c.1)
}.

(** The dish object after the status values [writes] were assigned to it. *)
Definition current (x0 : Dish) (writes : list string) : Dish :=
  match last writes with
  | Some v => with_status v x0
  | None => x0
  end.

(** The stages whose worker has assigned the status of dish [d]: the workers
    take the dishes in order, so these are the stages that have written more
    than [d] dishes. *)
Definition stages_passed (d : nat) (tr : list event) : list stage :=
  filter (λ k, d < length (status_set k tr)) all_stages.

(** Statuses: every dish carries the last value assigned to it, and the values
    assigned to it are those of the stages it has passed. *)
Record StatusInv (ds : list Dish) (c : config) : Prop := {
  st_dishes : ∀ d x0,
    ds !! d = Some x0 →
    dishes c.1 !! d = Some (current x0 (status_writes d c.2));
  st_writes : ∀ d,
    status_writes d c.2 = target_status <$> stages_passed d c.2
}.

(** The events of a worker are full cycles, one per acknowledged dish, and
    the begun cycle of the dish it works on. *)
Definition CycleInv (c : config) : Prop :=
  ∀ k, worker_events k c.2 =
       (acknowledged k c.2 ≫= cycle k) ++ partial_cycle k (workers c.1 k).

(** All invariants together. *)
Record Inv (ds : list Dish) (c : config) : Prop := {
  inv_flow : FlowInv ds c;
  inv_ctl : CtlInv ds c;
  inv_status : StatusInv ds c;
  inv_cycle : CycleInv c
}.

(** The dish objects in [completed_dishes], read through the store. *)
Definition completed_objects (s : state) : list Dish :=
  omap (λ r, dishes s !! r) (completed_dishes s).

(** ** Numbers, exceptions and the metrics dictionary *)

Inductive value :=
| VInt (z : Z)
| VFloat (q : Q).

Inductive exn := ZeroDivisionError.

(** A computation that returns a value or raises. *)
Definition result (A : Type) : Type := exn + A.

Definition raise {A} (e : exn) : result A := inl e.

#[global] Instance result_ret : MRet result := λ A x, inr x.

#[global] Instance result_bind : MBind result := λ A B f r,
  match r with
  | inl e => inl e
  | inr x => f x
  end.

Definition to_float (v : value) : Q :=
  match v with
  | VInt z => inject_Z z
  | VFloat q => q
  end.

Definition is_zero (v : value) : bool :=
  match v with
  | VInt z => (z =? 0)%Z
  | VFloat q => Qeq_bool q 0
  end.

(** Python's [a / b] on ints and floats. *)
Definition truediv (a b : value) : result value :=
  if is_zero b then raise ZeroDivisionError
  else mret (VFloat (to_float a / to_float b)).

(** A dict with string keys, in insertion order. *)
Definition dict : Type := list (string * value).

Fixpoint dict_get (key : string) (d : dict) : option value :=
  match d with
  | [] => None
  | (k, v) :: d' => if String.eqb k key then Some v else dict_get key d'
  end.

Definition dict_keys (d : dict) : list string := d.*1.

(** [r[key]] for the outcome of a run: nothing if the run raised. *)
Definition result_get (key : string) (r : result dict) : option value :=
  match r with
  | inl _ => None
  | inr d => dict_get key d
  end.

(** ** [SequentialDishwasher] *)

Definition pre_rinse (dish : nat) (ds : list Dish) : list Dish :=
  alter (with_status "pre-rinsed") dish ds.

Definition wash (dish : nat) (ds : list Dish) : list Dish :=
  alter (with_status "washed") dish ds.

Definition dry (dish : nat) (ds : list Dish) : list Dish :=
  alter (with_status "dried") dish ds.

Definition store (dish : nat) (ds : list Dish) : list Dish :=
  alter (with_status "stored") dish ds.

(** The loop of [process_sequential] over [self.dishes]. *)
Definition sequential_loop (ds : list Dish) : list Dish :=
  foldl (λ ds dish, store dish (dry dish (wash dish (pre_rinse dish ds))))
    ds (seq 0 (length ds)).

(** The metrics of [process_sequential]: they are computed from
    [self.num_dishes], the int that the constructor was given, not from the
    list of dishes. *)
Definition sequential_metrics (num_dishes : Z) (elapsed_time : Q)
    : result dict :=
  throughput ← truediv (VInt num_dishes) (VFloat elapsed_time);
  avg_time_per_dish ← truediv (VFloat elapsed_time) (VInt num_dishes);
  mret [("execution_time", VFloat elapsed_time);
       ("throughput", throughput);
       ("avg_time_per_dish", avg_time_per_dish);
       ("dishes_processed", VInt num_dishes)].

(** [process_sequential] on a dishwasher with the attributes
    [self.num_dishes = num_dishes] and [self.dishes = ds]: the dishes
    afterwards, and the returned dict or the exception. *)
Definition process_sequential (num_dishes : Z) (ds : list Dish)
    (elapsed_time : Q) : list Dish * result dict :=
  (sequential_loop ds, sequential_metrics num_dishes elapsed_time).

(** ** The metrics of [process_parallel] *)

(** From [dishes_completed = len(self.completed_dishes)] to the [return];
    the print of the pipeline efficiency divides by [self.num_dishes]. *)
Definition parallel_metrics (num_dishes : Z) (elapsed_time : Q)
    (dishes_completed : nat) : result dict :=
  throughput ←
    truediv (VInt (Z.of_nat dishes_completed)) (VFloat elapsed_time);
  avg_time_per_dish ←
    (if 0 <? dishes_completed
     then truediv (VFloat elapsed_time) (VInt (Z.of_nat dishes_completed))
     else mret (VInt 0));
  efficiency ←
    truediv (VInt (Z.of_nat dishes_completed)) (VInt num_dishes);
  mret [("execution_time", VFloat elapsed_time);
       ("throughput", throughput);
       ("avg_time_per_dish", avg_time_per_dish);
       ("dishes_processed", VInt (Z.of_nat dishes_completed))].

(** [process_parallel] on a dishwasher with the attributes
    [self.num_dishes = num_dishes] and [self.dishes = ds], under the schedule
    [sched]; [None] if the schedule ends before the coordinator has read the
    length of the completed list.  The threads never read [self.num_dishes]:
    it only enters the metrics. *)
Definition process_parallel (num_dishes : Z) (ds : list Dish)
    (sched : list tid) (elapsed_time : Q) : option (result dict) :=
  match coord (final ds sched) with
  | CDone dishes_completed =>
      Some (parallel_metrics num_dishes elapsed_time dishes_completed)
  | _ => None
  end.

(** ** The dish generators *)

Definition dish_types : list string := ["plate"; "bowl"; "utensil"].

Section Generator.
(** The state of the global random number generator and [random.choice]. *)
Context {Rng : Type}.
Variable random_choice : Rng → list string → string * Rng.

(** [SequentialDishwasher._generate_dishes] *)
Definition sequential_generate_dishes (num_dishes : nat) (rng : Rng)
    : list Dish * Rng :=
  foldl (λ '(dishes, rng) i,
           let '(dish_type, rng') := random_choice rng dish_types in
           (dishes ++ [Dish_init (i + 1) dish_type], rng'))
    ([], rng) (seq 0 num_dishes).

(** [ParallelDishwasher._generate_dishes] *)
Definition parallel_generate_dishes (num_dishes : nat) (rng : Rng)
    : list Dish * Rng :=
  foldl (λ '(dishes, rng) i,
           let '(dish_type, rng') := random_choice rng dish_types in
           (dishes ++ [Dish_init (i + 1) dish_type], rng'))
    ([], rng) (seq 0 num_dishes).

(** [SequentialDishwasher.__init__]: [self.dishes] for the int
    [num_dishes]; [range(num_dishes)] is empty for a count below one, so no
    dish is generated then, while [self.num_dishes] keeps the count as it was
    given. *)
Definition SequentialDishwasher_init (num_dishes : Z) (rng : Rng)
    : list Dish * Rng :=
  sequential_generate_dishes (Z.to_nat num_dishes) rng.

(** [ParallelDishwasher.__init__]: [self.dishes] for the int [num_dishes];
    the queues, the completed list and the stop flag are those of [init]. *)
Definition ParallelDishwasher_init (num_dishes : Z) (rng : Rng)
    : list Dish * Rng :=
  parallel_generate_dishes (Z.to_nat num_dishes) rng.
End Generator.

(** A generator for the examples: it cycles through the list. *)
Definition cycling_choice (rng : nat) (l : list string) : string * nat :=
  (default "" (l !! (rng mod length l)), S rng).

(** ** Progress: a potential that no step increases *)

(** Steps a worker has left in the cycle of the dish it holds. *)
Definition cycle_rest (pc : wpc) : nat :=
  match pc with
  | WSleep _ => 4
  | WStatus _ => 3
  | WPut _ => 2
  | WTaskDone _ => 1
  | _ => 0
  end.

(** Steps the coordinator has left, for [n] dishes. *)
Definition coord_rest (n : nat) (pc : cpc) : nat :=
  match pc with
  | CStart k => 15 + n - stage_index k
  | CFeed idx => 11 + n - idx
  | CQJoin k => 10 - stage_index k
  | CStop => 6
  | CTJoin k => 5 - stage_index k
  | CLen => 1
  | CDone _ => 0
  end.

(** Work left at stage [k]: five steps per dish not got yet, and the rest of
    the begun cycle. *)
Definition stage_work (n : nat) (c : config) (k : stage) : nat :=
  5 * (n - length (dequeued k c.2)) + cycle_rest (workers c.1 k).

(** A worker at the head of its loop with a dish waiting in its queue. *)
Definition waiting (s : state) (k : stage) : nat :=
  match workers s k, queue (queues s k) with
  | WLoop, _ :: _ => 1
  | _, _ => 0
  end.

Definition sum_stages (f : stage → nat) : nat :=
  f PreRinse + f Wash + f Dry + f Store.

Definition potential (ds : list Dish) (c : config) : nat :=
  2 * (coord_rest (length ds) (coord c.1) +
       sum_stages (stage_work (length ds) c)) +
  sum_stages (waiting c.1).

(** The thread whose next step brings the run forward: the coordinator,
    unless it is blocked in the join of a queue, and then the worker of
    that queue. *)
Definition helpful (s : state) : tid :=
  match coord s with
  | CQJoin k => if Queue_join_ready (queues s k) then Coordinator else Worker k
  | _ => Coordinator
  end.

(** A step is neutral when it changes neither the coordinator, nor a queue,
    nor the stop flag: a worker that polls its empty queue, or leaves. *)
Definition neutral (t : tid) (s s' : state) : Prop :=
  coord s' = coord s ∧ queues s' = queues s ∧
  stop_event s' = stop_event s ∧
  ∃ k, t = Worker k ∧
       (stop_event s = true ∨ unfinished_tasks (queues s k) = 0%Z).

Definition finished (c : config) : Prop := ∃ n, coord c.1 = CDone n.

(** A schedule with [rounds] consecutive segments in each of which every
    thread is scheduled at least once. *)
Fixpoint fair (rounds : nat) (sched : list tid) : Prop :=
  match rounds with
  | 0 => True
  | S r =>
      ∃ seg rest, sched = seg ++ rest ∧ (∀ t : tid, t ∈ seg) ∧ fair r rest
  end.

(** Rounds after which every fair schedule has completed the run. *)
Definition enough_rounds (ds : list Dish) : nat := potential ds (init ds, []).

(** ** Where the dishes are *)

(** The status a dish has when it enters stage [k]: what [Dish.__init__]
    set, or what the worker of the stage before assigned. *)
Definition input_status (k : stage) : string :=
  match k with
  | PreRinse => "dirty"
  | Wash => "pre-rinsed"
  | Dry => "washed"
  | Store => "dried"
  end.

(** Every place that holds a dish, from the completed list back to
    [queue_1]. *)
Definition locations (s : state) : list nat :=
  completed_dishes s ++
  held (workers s Store) ++ queue (queues s Store) ++
  held (workers s Dry) ++ queue (queues s Dry) ++
  held (workers s Wash) ++ queue (queues s Wash) ++
  held (workers s PreRinse) ++ queue (queues s PreRinse).

(** The places behind stage [k]: what its worker has handed to its output
    is in the queue or in the hands of a later stage, or in the completed
    list. *)
Definition downstream (s : state) (k : stage) : list nat :=
  match k with
  | Store => completed_dishes s
  | Dry =>
      completed_dishes s ++ held (workers s Store) ++ queue (queues s Store)
  | Wash =>
      completed_dishes s ++ held (workers s Store) ++ queue (queues s Store) ++
      held (workers s Dry) ++ queue (queues s Dry)
  | PreRinse =>
      completed_dishes s ++ held (workers s Store) ++ queue (queues s Store) ++
      held (workers s Dry) ++ queue (queues s Dry) ++
      held (workers s Wash) ++ queue (queues s Wash)
  end.

(** Steps a worker needs to leave its loop once the stop flag is set and its
    queue is empty. *)
Definition exit_rank (pc : wpc) : nat :=
  match pc with
  | WGet => 2
  | WLoop => 1
  | _ => 0
  end.

(** The pipeline after [stop_event.set()]: nothing is queued, and every
    worker polls, stands at the head of its loop, or has left it. *)
Definition winding_down (s : state) : Prop :=
  stopped (coord s) = true ∧ stop_event s = true ∧
  ∀ k, queue (queues s k) = [] ∧
       (workers s k = WGet ∨ workers s k = WLoop ∨ workers s k = WExit).

(** ** The sleeps of [process_sequential] *)

Section Sleep.
(** The state of the global random number generator and [random.uniform]. *)
Context {Rng : Type}.
Variable random_uniform : Rng → Q → Q → Q * Rng.

(** [SequentialDishwasher._simulate_processing_time] *)
Definition _simulate_processing_time (rng : Rng) : Q * Rng :=
  random_uniform rng (1 # 10) (3 # 10).

(** [pre_rinse], [wash], [dry] and [store] with their sleep: the dishes, the
    generator and the time slept so far. *)
Definition timed_stage (v : string) (dish : nat)
    (st : list Dish * Rng * Q) : list Dish * Rng * Q :=
  let '(ds, rng, slept) := st in
  let '(t, rng') := _simulate_processing_time rng in
  (alter (with_status v) dish ds, rng', (slept + t)%Q).

(** The loop of [process_sequential] with its sleeps. *)
Definition timed_loop (ds : list Dish) (rng : Rng) : list Dish * Rng * Q :=
  foldl (λ st dish,
           timed_stage "stored" dish
             (timed_stage "dried" dish
                (timed_stage "washed" dish
                   (timed_stage "pre-rinsed" dish st))))
    (ds, rng, 0%Q) (seq 0 (length ds)).
End Sleep.

(** A [random.uniform] for the examples: the two ends of the interval in
    turn. *)
Definition alternating_uniform (rng : bool) (a b : Q) : Q * bool :=
  (if rng then a else b, negb rng).

(** ** [quick_test] *)

(** What [quick_test] can raise: a missing key of a result dict, or what one
    of the two runs raised. *)
Inductive test_error :=
| KeyError (key : string)
| Raised (e : exn).

(** [d[key]] *)
Definition subscript (d : dict) (key : string) : test_error + value :=
  match dict_get key d with
  | Some v => inr v
  | None => inl (KeyError key)
  end.

Section QuickTest.
Context {Rng : Type}.
Variable random_choice : Rng → list string → string * Rng.
(** [random.seed(42)]: the generator state for a seed. *)
Variable random_seed : Z → Rng.

(** [quick_test], from the seeding to the speedup; [None] if the schedule
    of the parallel run ends before [process_parallel] is through.  The
    value is the speedup that is printed. *)
Definition quick_test (sched : list tid) (e_seq e_par : Q)
    : option (test_error + value) :=
  let num_dishes := 20%Z in
  let rng := random_seed 42 in
  let '(seq_dishes, rng) :=
    SequentialDishwasher_init random_choice num_dishes rng in
  match (process_sequential num_dishes seq_dishes e_seq).2 with
  | inl e => Some (inl (Raised e))
  | inr seq_result =>
      let rng := random_seed 42 in
      let '(par_dishes, rng) :=
        ParallelDishwasher_init random_choice num_dishes rng in
      match process_parallel num_dishes par_dishes sched e_par with
      | None => None
      | Some (inl e) => Some (inl (Raised e))
      | Some (inr par_result) =>
          Some
            match subscript seq_result "execution_time" with
            | inl e => inl e
            | inr a =>
                match subscript par_result "execution_time" with
                | inl e => inl e
                | inr b =>
                    match truediv a b with
                    | inl e => inl (Raised e)
                    | inr speedup => inr speedup
                    end
                end
            end
      end
  end.
End QuickTest.

(** The dishes of the examples. *)
Definition demo_dishes : list Dish :=
  [Dish_init 1 "plate"; Dish_init 2 "bowl"; Dish_init 3 "utensil"].

(** * Proofs *)

Example demo_run_completed :
  completed_dishes (final demo_dishes (round_robin 40)) = [0; 1; 2].
Proof. vm_compute. reflexivity. Qed.

Example demo_run_coord :
  coord (final demo_dishes (round_robin 40)) = CDone 3.
Proof. vm_compute. reflexivity. Qed.


(** ** Histories of an extended trace *)

Lemma enqueued_app k tr1 tr2 :
  enqueued k (tr1 ++ tr2) = enqueued k tr1 ++ enqueued k tr2.
Proof. apply omap_app. Qed.

Lemma dequeued_app k tr1 tr2 :
  dequeued k (tr1 ++ tr2) = dequeued k tr1 ++ dequeued k tr2.
Proof. apply omap_app. Qed.

Lemma acknowledged_app k tr1 tr2 :
  acknowledged k (tr1 ++ tr2) = acknowledged k tr1 ++ acknowledged k tr2.
Proof. apply omap_app. Qed.

Lemma appended_app tr1 tr2 :
  appended (tr1 ++ tr2) = appended tr1 ++ appended tr2.
Proof. apply omap_app. Qed.

Lemma status_set_app k tr1 tr2 :
  status_set k (tr1 ++ tr2) = status_set k tr1 ++ status_set k tr2.
Proof. apply omap_app. Qed.

Lemma status_writes_app d tr1 tr2 :
  status_writes d (tr1 ++ tr2) = status_writes d tr1 ++ status_writes d tr2.
Proof. apply omap_app. Qed.

Lemma handed_on_app k tr1 tr2 :
  handed_on k (tr1 ++ tr2) = handed_on k tr1 ++ handed_on k tr2.
Proof.
  unfold handed_on. destruct (next_stage k).
  - apply enqueued_app.
  - apply appended_app.
Qed.

Lemma worker_events_app k tr1 tr2 :
  worker_events k (tr1 ++ tr2) = worker_events k tr1 ++ worker_events k tr2.
Proof. apply filter_app. Qed.

Lemma coordinator_events_app tr1 tr2 :
  coordinator_events (tr1 ++ tr2) =
  coordinator_events tr1 ++ coordinator_events tr2.
Proof. apply filter_app. Qed.

(** Histories of [tr ++ evs], one list at a time. *)
Ltac hist_app :=
  rewrite ?enqueued_app, ?dequeued_app, ?acknowledged_app, ?appended_app,
    ?status_set_app, ?handed_on_app.

Lemma flow_init ds : FlowInv ds (init ds, []).
Proof. split; intros; try destruct k; reflexivity || (simpl; lia) || done. Qed.

(** ** Tactics for the case analyses over threads and program points *)

#[local] Arguments seq : simpl never.

(** All stage variables by cases. *)
Ltac destruct_stages :=
  repeat match goal with k : stage |- _ => destruct k end.

(** [l !! i = Some _] and [l !! i = None] as bounds on [i]. *)
Ltac lookup_bounds :=
  repeat match goal with
         | H : _ !! _ = Some _ |- _ => apply lookup_lt_Some in H
         | H : _ !! _ = None |- _ => apply lookup_ge_None in H
         end.

(** What [flow_started] says once the coordinator's point is known. *)
Ltac started_facts :=
  repeat match goal with
         | H : _ ↔ false = false |- _ =>
             apply proj2 in H; specialize (H eq_refl)
         | H : _ ↔ true = false |- _ => apply proj1 in H
         end.

(** The invariants of one stage. *)
Ltac at_stage k :=
  repeat match goal with
         | H : ∀ _ : stage, _ |- _ => specialize (H k)
         end.

(** Evaluate the updated state and the extended histories. *)
Ltac norm :=
  cbn in *;
  rewrite ?fn_lookup_insert in *;
  rewrite ?fn_lookup_insert_ne in * by done;
  repeat match goal with
         | H : workers ?s ?k = _, H' : context [workers ?s ?k] |- _ =>
             lazymatch H' with H => fail | _ => rewrite H in H' end
         | H : workers ?s ?k = _ |- context [workers ?s ?k] => rewrite H
         | H : queue (queues ?s ?k) = _,
           H' : context [queue (queues ?s ?k)] |- _ =>
             lazymatch H' with H => fail | _ => rewrite H in H' end
         | H : queue (queues ?s ?k) = _
           |- context [queue (queues ?s ?k)] => rewrite H
         end;
  hist_app; cbn in *;
  repeat (case_decide; simplify_eq);
  rewrite ?seq_S; cbn in *.

(** Equations between lists, from the equations of the invariant. *)
Ltac list_eq :=
  repeat match goal with
         | H : ?l = _ ++ _ |- context [?l] => rewrite H
         | H : workers ?s ?k = _ |- context [workers ?s ?k] => rewrite H
         end;
  rewrite <- ?app_assoc, ?app_nil_r; cbn; done.

Ltac seq_eq :=
  match goal with
  | H : ?l = seq _ _ |- context [?l] =>
      rewrite H; rewrite ?app_nil_r; solve [done | f_equal; lia]
  end.

Ltac finish :=
  solve [ done | lia | congruence | rewrite ?length_app; cbn; lia
        | list_eq | seq_eq ].

Lemma flow_step_coord ds s tr evs s' :
  FlowInv ds (s, tr) → coord_step s = Some (evs, s') →
  FlowInv ds (s', tr ++ evs).
Proof.
  intros [Hlen Hq Hw Ha Hs Hc Hcd Hf Hfl Hst] Hstep. simpl in *.
  unfold coord_step, Queue_join_ready in Hstep.
  destruct (coord s) eqn:Ec; destruct_stages; cbn in Hstep;
    repeat case_match; simplify_eq.
  all: lookup_bounds.
  all: split; simpl; try (intros k'; at_stage k'; destruct k'); norm;
    started_facts.
  all: finish.
Qed.

(** A worker that is about to call [task_done] has an unfinished task to
    acknowledge. *)
Lemma flow_task_pending ds s tr k d :
  FlowInv ds (s, tr) → workers s k = WTaskDone d →
  (1 ≤ unfinished_tasks (queues s k))%Z.
Proof.
  intros [_ Hq Hw Ha _ Hc _ _ _ _] Hpc. simpl in *.
  rewrite (Hc k). specialize (Hq k). rewrite (Hw k), (Ha k), Hpc in Hq.
  apply (f_equal length) in Hq. rewrite !length_app in Hq. simpl in Hq. lia.
Qed.

(** A worker that has moved was started, and stays so. *)
Ltac started_eq :=
  match goal with
  | H : _ ↔ ?b = false |- _ ↔ ?b = false =>
      split; [done | intros Hx; apply H in Hx; done]
  end.

Lemma flow_step_worker ds s tr k evs s' :
  FlowInv ds (s, tr) → worker_step k s = Some (evs, s') →
  FlowInv ds (s', tr ++ evs).
Proof.
  intros Hinv Hstep.
  unfold worker_step, Queue_get, Queue_task_done in Hstep.
  destruct (workers s k) eqn:Hpc; try done.
  6: { pose proof (flow_task_pending _ _ _ _ _ Hinv Hpc).
       destruct (Z.ltb_spec (unfinished_tasks (queues s k) - 1) 0);
         [lia|]. revert Hstep Hpc.
       destruct Hinv as [Hlen Hq Hw Ha Hs Hc Hcd Hf Hfl Hst]; intros.
       simplify_eq. simpl in *.
       split; simpl; try (intros k'; at_stage k'; destruct k, k'); norm.
       all: solve [finish | started_eq]. }
  all: destruct Hinv as [Hlen Hq Hw Ha Hs Hc Hcd Hf Hfl Hst]; simpl in *.
  all: destruct k; cbn in Hstep; repeat case_match; simplify_eq.
  all: split; simpl; try (intros k'; at_stage k'; destruct k'); norm.
  all: solve [finish | started_eq | by rewrite length_alter].
Qed.

Lemma flow_step ds s tr t evs s' :
  FlowInv ds (s, tr) → step t s = Some (evs, s') → FlowInv ds (s', tr ++ evs).
Proof.
  intros Hinv Hstep. destruct t as [|k].
  - by eapply flow_step_coord.
  - eapply (flow_step_worker _ _ _ k); [done|]. by destruct k.
Qed.
Lemma flow_held_pending ds s tr k :
  FlowInv ds (s, tr) → held (workers s k) ≠ [] →
  (1 ≤ unfinished_tasks (queues s k))%Z.
Proof.
  intros [_ Hq Hw Ha _ Hc _ _ _ _] Hpc. simpl in *.
  rewrite (Hc k). specialize (Hq k). rewrite (Hw k), (Ha k) in Hq.
  apply (f_equal length) in Hq. rewrite !length_app in Hq.
  destruct (held (workers s k)); [done|]. simpl in Hq. lia.
Qed.

(** A queue whose counter is zero is empty, its worker holds nothing, and
    every dish put into it has been got, handed on and acknowledged. *)
Lemma flow_drained ds s tr k :
  FlowInv ds (s, tr) → unfinished_tasks (queues s k) = 0%Z →
  queue (queues s k) = [] ∧ held (workers s k) = [] ∧
  acking (workers s k) = [] ∧ dequeued k tr = enqueued k tr ∧
  handed_on k tr = enqueued k tr ∧ acknowledged k tr = enqueued k tr.
Proof.
  intros [_ Hq Hw Ha _ Hc _ _ _ _] H0. simpl in *.
  specialize (Hq k). specialize (Hw k). specialize (Ha k).
  rewrite (Hc k) in H0.
  assert (Hl := Hq). rewrite Hw, Ha in Hl.
  apply (f_equal length) in Hl. rewrite !length_app in Hl.
  destruct (queue (queues s k)); [|simpl in Hl; lia].
  destruct (held (workers s k)); [|simpl in Hl; lia].
  destruct (acking (workers s k)); [|simpl in Hl; lia].
  rewrite !app_nil_r in *. repeat split; congruence.
Qed.

(** Once all four counters are zero and all dishes are fed, the completed
    list is the list of all dishes in feeding order. *)
Lemma flow_all_drained ds s tr :
  FlowInv ds (s, tr) →
  (∀ k, unfinished_tasks (queues s k) = 0%Z) →
  fed (length ds) (coord s) = length ds →
  completed_dishes s = seq 0 (length ds).
Proof.
  intros Hinv H0 Hfed.
  pose proof (flow_drained _ _ _ PreRinse Hinv (H0 _)) as (_&_&_&_&H1&_).
  pose proof (flow_drained _ _ _ Wash Hinv (H0 _)) as (_&_&_&_&H2&_).
  pose proof (flow_drained _ _ _ Dry Hinv (H0 _)) as (_&_&_&_&H3&_).
  pose proof (flow_drained _ _ _ Store Hinv (H0 _)) as (_&_&_&_&H4&_).
  destruct Hinv as [_ _ _ _ _ _ Hcd Hf _ _]. simpl in *.
  unfold handed_on in *. simpl in *. congruence.
Qed.
Lemma ctl_init ds : CtlInv ds (init ds, []).
Proof. split; intros; try destruct k; done. Qed.

(** Boolean comparisons of integers as propositions. *)
Ltac bool_facts :=
  repeat match goal with
         | H : (_ =? _)%Z = true |- _ => apply Z.eqb_eq in H
         | H : (_ =? _)%Z = false |- _ => apply Z.eqb_neq in H
         | H : (_ <? _)%Z = true |- _ => apply Z.ltb_lt in H
         | H : (_ <? _)%Z = false |- _ => apply Z.ltb_ge in H
         end.

Lemma coordinator_events_one e :
  coordinator_events [e] = if coordinator_event e then [e] else [].
Proof. unfold coordinator_events. cbn. by destruct (coordinator_event e). Qed.

Lemma coordinator_events_nil : coordinator_events [] = [].
Proof. done. Qed.

(** When the coordinator reads the length of the completed list, the list
    holds every dish. *)
Lemma ctl_all_completed ds s tr :
  FlowInv ds (s, tr) → CtlInv ds (s, tr) →
  (∀ k, drained (coord s) k = true) →
  completed_dishes s = seq 0 (length ds).
Proof.
  intros Hflow Hctl Hall. eapply flow_all_drained; [done| |].
  - intros k. by apply (ctl_drained _ _ Hctl).
  - specialize (Hall PreRinse). by destruct (coord s).
Qed.

Lemma coord_history_step ds s tr evs s' :
  FlowInv ds (s, tr) →
  coordinator_events tr = coord_history (length ds) (coord s) →
  coord_step s = Some (evs, s') →
  coordinator_events (tr ++ evs) = coord_history (length ds) (coord s').
Proof.
  intros Hflow Hco Hstep.
  pose proof (flow_len _ _ Hflow) as Hlen.
  pose proof (flow_fed_le _ _ Hflow) as Hfl. cbn [fst snd] in *.
  rewrite coordinator_events_app, Hco. clear Hco.
  unfold coord_step in Hstep.
  destruct (coord s) eqn:Ec; [destruct k| |destruct k| |destruct k| |];
    cbn [next_stage] in Hstep; repeat case_match; simplify_eq.
  all: lookup_bounds; cbn [fed] in Hfl.
  all: try (assert (idx = length ds) as -> by lia).
  all: rewrite ?coordinator_events_one, ?coordinator_events_nil.
  all: unfold coord_history, coord_script, set_coord, coord.
  all: cbn [stage_index take all_stages coordinator_event].
  all: rewrite ?seq_S, ?fmap_app, ?app_nil_r; cbn; rewrite <- ?app_assoc.
  all: done.
Qed.

Lemma ctl_step_coord ds s tr evs s' :
  FlowInv ds (s, tr) → CtlInv ds (s, tr) →
  coord_step s = Some (evs, s') → CtlInv ds (s', tr ++ evs).
Proof.
  intros Hflow Hctl Hstep.
  pose proof (ctl_all_completed _ _ _ Hflow Hctl) as Hall.
  pose proof (coord_history_step _ _ _ _ _ Hflow (ctl_coord _ _ Hctl) Hstep)
    as Hco'.
  destruct Hctl as [Hstop Hexit Herr Hdr Hdone _]. cbn [fst snd] in *.
  split; [| | | | |exact Hco']; clear Hco'.
  all: unfold coord_step, Queue_join_ready in Hstep.
  all: destruct (coord s) eqn:Ec; destruct_stages; cbn in Hstep;
    repeat case_match; simplify_eq.
  all: bool_facts; simpl.
  all: try (intros k'; at_stage k'; destruct k'); norm.
  all: try finish.
  all: intros [= Hn]; rewrite Hall, length_seq in Hn by done; lia.
Qed.


Lemma worker_step_frame k s evs s' :
  worker_step k s = Some (evs, s') →
  coordinator_events evs = [] ∧ coord s' = coord s ∧
  stop_event s' = stop_event s.
Proof.
  unfold worker_step. intros Hstep.
  destruct k; cbn [next_stage] in Hstep; repeat case_match; simplify_eq;
    by rewrite ?coordinator_events_one.
Qed.

Lemma drained_mono pc k k' :
  stage_index k ≤ stage_index k' → drained pc k' = true → drained pc k = true.
Proof.
  destruct pc; simpl; try done.
  intros Hle H%Nat.ltb_lt. apply Nat.ltb_lt. lia.
Qed.

Lemma ctl_step_worker ds s tr k evs s' :
  FlowInv ds (s, tr) → CtlInv ds (s, tr) →
  worker_step k s = Some (evs, s') → CtlInv ds (s', tr ++ evs).
Proof.
  intros Hflow Hctl Hstep.
  pose proof (flow_held_pending _ _ _ k Hflow) as Hheld.
  pose proof (λ d, flow_task_pending ds s tr k d Hflow) as Htd.
  pose proof (worker_step_frame _ _ _ _ Hstep) as (Hco' & Hpc' & Hstop').
  destruct Hctl as [Hstop Hexit Herr Hdr Hdone Hco]. cbn [fst snd] in *.
  split; cbn [fst snd].
  1: by rewrite Hstop', Hpc'.
  4: by rewrite Hpc'.
  4: by rewrite coordinator_events_app, Hco', app_nil_r, Hpc'.
  all: clear Hco Hco' Hpc' Hstop' Hdone.
  all: pose proof (Hdr k) as Hdrk.
  all: pose proof (λ k', drained_mono (coord s) k k') as Hmono.
  all: unfold worker_step, Queue_get, Queue_task_done in Hstep.
  all: destruct (workers s k) eqn:Hpc; try done.
  all: try (specialize (Htd _ eq_refl)).
  all: try (specialize (Hheld ltac:(done))).
  all: intros k'; at_stage k'.
  all: destruct k; cbn in Hstep; repeat case_match; simplify_eq.
  all: bool_facts; try lia.
  all: destruct k'; norm.
  all: try solve [finish | intuition (congruence || lia)].
  all: intros Hd; specialize (Hmono ltac:(lia) Hd); specialize (Hdrk Hmono);
    lia.
Qed.

Lemma ctl_step ds s tr t evs s' :
  FlowInv ds (s, tr) → CtlInv ds (s, tr) →
  step t s = Some (evs, s') → CtlInv ds (s', tr ++ evs).
Proof.
  intros Hflow Hctl Hstep. destruct t as [|k].
  - by eapply ctl_step_coord.
  - eapply (ctl_step_worker _ _ _ k); [done..|]. by destruct k.
Qed.


(** ** Dishes are handled in feeding order *)

Lemma seq_app_prefix (l1 l2 : list nat) n :
  seq 0 n = l1 ++ l2 → l1 = seq 0 (length l1).
Proof.
  intros H. rewrite <- (take_app_length l1 l2) at 1. rewrite <- H.
  rewrite take_seq. f_equal.
  apply (f_equal length) in H. rewrite length_seq, length_app in H. lia.
Qed.

Lemma seq_snoc_last (l : list nat) d n : seq 0 n = l ++ [d] → d = length l.
Proof.
  intros H.
  assert (seq 0 n !! length l = Some d) as Hd
    by (rewrite H; apply list_lookup_middle; done).
  apply lookup_seq in Hd. lia.
Qed.

(** Whatever was put into a queue is an initial segment of the dishes. *)
Lemma flow_enqueued_seq ds s tr k :
  FlowInv ds (s, tr) → enqueued k tr = seq 0 (length (enqueued k tr)).
Proof.
  intros [_ Hq Hw _ _ _ _ Hf _ _]. simpl in *.
  assert (∀ k, enqueued k tr = seq 0 (length (enqueued k tr)) →
               handed_on k tr = seq 0 (length (handed_on k tr))) as Hnext.
  { intros k' He. rewrite (Hq k'), (Hw k'), <- app_assoc in He.
    symmetry in He. by apply seq_app_prefix in He. }
  assert (enqueued PreRinse tr = seq 0 (length (enqueued PreRinse tr))) as H1.
  { rewrite Hf at 1. by rewrite Hf, length_seq. }
  pose proof (Hnext PreRinse H1) as H2.
  pose proof (Hnext Wash H2) as H3.
  pose proof (Hnext Dry H3) as H4.
  by destruct k.
Qed.

(** The dish a worker holds is the next one in feeding order: as many dishes
    as its number have been handed on by this worker before. *)
Lemma flow_held_next ds s tr k d :
  FlowInv ds (s, tr) → held (workers s k) = [d] →
  d = length (handed_on k tr).
Proof.
  intros Hflow Hheld. pose proof (flow_enqueued_seq _ _ _ k Hflow) as He.
  destruct Hflow as [_ Hq Hw _ _ _ _ _ _ _]. simpl in *.
  rewrite (Hq k), (Hw k), Hheld, <- app_assoc in He.
  rewrite (app_assoc _ [d]) in He. symmetry in He.
  apply seq_app_prefix in He. symmetry in He. by apply seq_snoc_last in He.
Qed.

(** The numbers of dishes written by the four workers decrease along the
    pipeline. *)
Lemma flow_status_chain ds s tr k k' :
  FlowInv ds (s, tr) → next_stage k = Some k' →
  length (status_set k' tr) + length (held (workers s k')) -
    length (putting (workers s k')) + length (queue (queues s k')) =
  length (status_set k tr) - length (putting (workers s k)).
Proof.
  intros [_ Hq Hw _ Hs _ _ _ _ _] Hn. simpl in *.
  pose proof (Hs k) as H1. pose proof (Hs k') as H2.
  pose proof (Hq k') as H3. pose proof (Hw k') as H4.
  unfold handed_on in H1 at 1. rewrite Hn in H1.
  apply (f_equal length) in H1, H2, H3, H4.
  rewrite !length_app in *. lia.
Qed.

(** ** Statuses *)

Lemma status_init ds : StatusInv ds (init ds, []).
Proof.
  split; intros.
  - done.
  - unfold stages_passed, all_stages. rewrite !filter_cons, !filter_nil.
    repeat case_decide; simpl in *; done || lia.
Qed.

(** A step either is the assignment [dish.status = ...] of a worker, or it
    leaves the statuses alone. *)
Lemma step_status t s evs s' :
  step t s = Some (evs, s') →
  (∃ k d, t = Worker k ∧ workers s k = WStatus d ∧
      evs = [EvStatus k d (target_status k)] ∧
      dishes s' = alter (with_status (target_status k)) d (dishes s)) ∨
  (dishes s' = dishes s ∧ (∀ k, status_set k evs = []) ∧
   (∀ d, status_writes d evs = [])).
Proof.
  intros Hstep. destruct t as [|k].
  - right. unfold step, coord_step in Hstep.
    repeat case_match; simplify_eq; done.
  - assert (worker_step k s = Some (evs, s')) as Hw by (by destruct k).
    clear Hstep. unfold worker_step in Hw.
    destruct (workers s k) eqn:Hpc; try done.
    4: { left. exists k, dish. by simplify_eq. }
    all: right; repeat case_match; simplify_eq; done.
Qed.

Lemma with_status_current v x0 writes :
  with_status v (current x0 writes) = with_status v x0.
Proof. unfold current. by destruct (last writes). Qed.

Lemma status_step ds s tr t evs s' :
  FlowInv ds (s, tr) → StatusInv ds (s, tr) →
  step t s = Some (evs, s') → StatusInv ds (s', tr ++ evs).
Proof.
  intros Hflow [Hd Hw] Hstep. simpl in *.
  destruct (step_status _ _ _ _ Hstep)
    as [(k & d0 & -> & Hpc & -> & Hds)|(Hds & Hset & Hwr)].
  - assert (d0 = length (status_set k tr)) as Hd0.
    { pose proof (flow_status _ _ Hflow k) as Hsk. simpl in Hsk.
      rewrite Hsk, Hpc, app_nil_r.
      eapply flow_held_next; [done|]. by rewrite Hpc. }
    pose proof (flow_status_chain _ _ _ PreRinse Wash Hflow eq_refl) as H12.
    pose proof (flow_status_chain _ _ _ Wash Dry Hflow eq_refl) as H23.
    pose proof (flow_status_chain _ _ _ Dry Store Hflow eq_refl) as H34.
    assert (∀ k', length (putting (workers s k')) ≤ length (held (workers s k')))
      as Hph by (intros k'; destruct (workers s k'); simpl; lia).
    pose proof (Hph PreRinse). pose proof (Hph Wash).
    pose proof (Hph Dry). pose proof (Hph Store). clear Hph.
    split; simpl.
    + intros d x0 Hx0. rewrite Hds, status_writes_app. simpl.
      destruct (decide (d0 = d)) as [->|Hne].
      * rewrite list_lookup_alter_eq, (Hd _ _ Hx0). simpl.
        rewrite with_status_current. unfold current. by rewrite last_snoc.
      * rewrite list_lookup_alter_ne by done. rewrite app_nil_r. by apply Hd.
    + intros d. rewrite status_writes_app, Hw. unfold stages_passed.
      unfold all_stages. rewrite !filter_cons, !filter_nil. cbn beta.
      rewrite !status_set_app. simpl.
      destruct k; rewrite Hpc in *; simpl in *.
      all: rewrite ?length_app; simpl.
      all: repeat (case_decide; simplify_eq; try (exfalso; lia)).
      all: done.
  - split; simpl.
    + intros d x0 Hx0. rewrite Hds, status_writes_app, Hwr, app_nil_r.
      by apply Hd.
    + intros d. rewrite status_writes_app, Hwr, app_nil_r, Hw.
      unfold stages_passed, all_stages.
      rewrite !filter_cons, !filter_nil. cbn beta.
      by rewrite !status_set_app, !Hset, !app_nil_r.
Qed.
(** ** The cycle of a worker *)

Lemma cycle_init : CycleInv (init [], []) ∧ ∀ ds, CycleInv (init ds, []).
Proof. split; [|intros ds]; intros k; done. Qed.

Lemma worker_events_one k e :
  worker_events k [e] = if worker_event k e then [e] else [].
Proof. unfold worker_events. cbn. by destruct (worker_event k e). Qed.

Lemma cycle_step ds s tr t evs s' :
  FlowInv ds (s, tr) → CycleInv (s, tr) →
  step t s = Some (evs, s') → CycleInv (s', tr ++ evs).
Proof.
  intros Hflow Hcyc Hstep k'. specialize (Hcyc k'). simpl in *.
  rewrite worker_events_app, acknowledged_app, bind_app, Hcyc.
  destruct t as [|k].
  - unfold step, coord_step in Hstep.
    destruct (coord s) eqn:Ec; destruct_stages; cbn in Hstep;
      repeat case_match; simplify_eq.
    all: rewrite ?worker_events_one; cbn.
    all: rewrite ?fn_lookup_insert, ?app_nil_r;
         rewrite ?fn_lookup_insert_ne by done.
    all: try done.
    all: pose proof (flow_started _ _ Hflow) as Hst; simpl in Hst;
      rewrite Ec in Hst.
    all: match goal with
         | |- context [workers _ ?k] => specialize (Hst k)
         end; cbn in Hst; started_facts.
    all: by rewrite Hst, app_nil_r.
  - assert (worker_step k s = Some (evs, s')) as Hw by (by destruct k).
    clear Hstep. unfold worker_step, Queue_get in Hw.
    destruct (workers s k) eqn:Hpc; try done.
    6: { pose proof (flow_task_pending _ _ _ _ _ Hflow Hpc).
         unfold Queue_task_done in Hw.
         destruct (Z.ltb_spec (unfinished_tasks (queues s k) - 1) 0);
           [lia|]. simplify_eq.
         rewrite worker_events_one. cbn.
         destruct k, k'; cbn.
         all: repeat (case_decide; simplify_eq). 
         all: rewrite ?fn_lookup_insert, ?app_nil_r;
           rewrite ?fn_lookup_insert_ne by done.
         all: rewrite ?Hpc; cbn; rewrite <- ?app_assoc, ?app_nil_r; done. }
    all: destruct k; cbn in Hw; repeat case_match; simplify_eq.
    all: rewrite ?worker_events_one; cbn.
    all: destruct k'; cbn.
    all: repeat (case_decide; simplify_eq). 
    all: rewrite ?fn_lookup_insert, ?app_nil_r;
         rewrite ?fn_lookup_insert_ne by done.
    all: rewrite ?Hpc; cbn; rewrite <- ?app_assoc, ?app_nil_r; done.
Qed.
(** ** The invariants hold along every run *)

Lemma inv_init ds : Inv ds (init ds, []).
Proof.
  split; [apply flow_init|apply ctl_init|apply status_init|apply cycle_init].
Qed.

Lemma inv_sched_step ds c t : Inv ds c → Inv ds (sched_step c t).
Proof.
  destruct c as [s tr]. intros [Hf Hc Hs Hy]. unfold sched_step. simpl.
  destruct (step t s) as [[evs s']|] eqn:Hstep; [|by split].
  split; [by eapply flow_step|by eapply ctl_step|by eapply status_step
         |by eapply cycle_step].
Qed.

Lemma inv_exec ds sched c : Inv ds c → Inv ds (exec sched c).
Proof.
  revert c. induction sched as [|t sched IH]; intros c Hc; [done|].
  simpl. apply IH. by apply inv_sched_step.
Qed.

Lemma inv_run ds sched : Inv ds (run ds sched).
Proof. apply inv_exec, inv_init. Qed.

Lemma run_final_history ds sched :
  run ds sched = (final ds sched, history ds sched).
Proof. unfold final, history. by destruct (run ds sched). Qed.

(** ** After the four joins *)

Lemma drained_all pc : drained pc Store = true → ∀ k, drained pc k = true.
Proof. intros H k. eapply drained_mono; [|done]. destruct k; simpl; lia. Qed.

Lemma drained_fed n pc : drained pc Store = true → fed n pc = n.
Proof. by destruct pc. Qed.

(** Once [queue_4.join()] has returned, every list of the history is the
    list of all dishes and no worker holds a dish. *)
Lemma inv_drained_all ds s tr :
  Inv ds (s, tr) → drained (coord s) Store = true →
  completed_dishes s = seq 0 (length ds) ∧
  ∀ k, queue (queues s k) = [] ∧ held (workers s k) = [] ∧
       acking (workers s k) = [] ∧ enqueued k tr = seq 0 (length ds) ∧
       status_set k tr = seq 0 (length ds).
Proof.
  intros [Hf Hc _ _] Hd. pose proof (drained_all _ Hd) as Hall.
  assert (∀ k, unfinished_tasks (queues s k) = 0%Z) as H0.
  { intros k. by apply (ctl_drained _ _ Hc). }
  split; [by eapply ctl_all_completed|].
  assert (∀ k, enqueued k tr = seq 0 (length ds)) as He.
  { pose proof (flow_drained _ _ _ PreRinse Hf (H0 _)) as (_&_&_&_&H1&_).
    pose proof (flow_drained _ _ _ Wash Hf (H0 _)) as (_&_&_&_&H2&_).
    pose proof (flow_drained _ _ _ Dry Hf (H0 _)) as (_&_&_&_&H3&_).
    pose proof (flow_fed _ _ Hf) as Hfed. simpl in Hfed.
    rewrite (drained_fed _ _ Hd) in Hfed.
    unfold handed_on in *. simpl in *. intros []; congruence. }
  intros k.
  pose proof (flow_drained _ _ _ k Hf (H0 _)) as (Hq&Hh&Ha&_&Ho&_).
  repeat split; try done.
  pose proof (flow_status _ _ Hf k) as Hs. simpl in Hs.
  rewrite Hs, Ho, He.
  destruct (workers s k); simpl in *; try done; by rewrite app_nil_r.
Qed.

Lemma stages_passed_all d tr n :
  (∀ k, status_set k tr = seq 0 n) → d < n → stages_passed d tr = all_stages.
Proof.
  intros Hs Hd. unfold stages_passed, all_stages.
  rewrite !filter_cons, filter_nil, !Hs, !length_seq.
  by rewrite !decide_True by done.
Qed.

(** Once [queue_4.join()] has returned, the store holds the dishes as they
    were created, all with status stored. *)
Lemma inv_drained_dishes ds s tr :
  Inv ds (s, tr) → drained (coord s) Store = true →
  dishes s = with_status "stored" <$> ds.
Proof.
  intros Hinv Hd. pose proof (inv_drained_all _ _ _ Hinv Hd) as [_ Hall].
  destruct Hinv as [Hf _ [Hds Hwr] _]. simpl in *.
  apply list_eq. intros d. rewrite list_lookup_fmap.
  destruct (ds !! d) as [x0|] eqn:Hx0; simpl.
  - rewrite (Hds _ _ Hx0), Hwr, (stages_passed_all _ _ (length ds)).
    + done.
    + intros k. apply Hall.
    + by eapply lookup_lt_Some.
  - apply lookup_ge_None. apply lookup_ge_None in Hx0.
    pose proof (flow_len _ _ Hf). simpl in *. lia.
Qed.
Lemma done_drained pc n : pc = CDone n → drained pc Store = true.
Proof. by intros ->. Qed.

Lemma omap_lookup_seq_app {A} (l1 l2 : list A) :
  omap (λ r, (l1 ++ l2) !! r) (seq (length l1) (length l2)) = l2.
Proof.
  revert l1. induction l2 as [|x l2 IH]; intros l1; [done|].
  change (seq (length l1) (length (x :: l2)))
    with (length l1 :: seq (S (length l1)) (length l2)).
  cbn [omap list_omap]. simpl. rewrite list_lookup_middle by done.
  f_equal. specialize (IH (l1 ++ [x])).
  rewrite <- app_assoc, length_app, Nat.add_1_r in IH. done.
Qed.

Lemma omap_lookup_seq {A} (l : list A) :
  omap (λ r, l !! r) (seq 0 (length l)) = l.
Proof. apply (omap_lookup_seq_app [] l). Qed.

Lemma flow_handed_on_prefix ds s tr k :
  FlowInv ds (s, tr) → handed_on k tr `prefix_of` enqueued k tr.
Proof.
  intros Hf. pose proof (flow_queue _ _ Hf k) as Hq.
  pose proof (flow_worker _ _ Hf k) as Hw. simpl in *.
  rewrite Hq, Hw. by do 2 apply prefix_app_r.
Qed.

Lemma flow_enqueued_prefix ds s tr k :
  FlowInv ds (s, tr) → enqueued k tr `prefix_of` seq 0 (length ds).
Proof.
  intros Hf. pose proof (flow_fed _ _ Hf) as Hfed.
  pose proof (flow_fed_le _ _ Hf) as Hfl. simpl in *.
  pose proof (flow_handed_on_prefix _ _ _ PreRinse Hf) as H1.
  pose proof (flow_handed_on_prefix _ _ _ Wash Hf) as H2.
  pose proof (flow_handed_on_prefix _ _ _ Dry Hf) as H3.
  unfold handed_on in *. simpl in *.
  assert (enqueued PreRinse tr `prefix_of` seq 0 (length ds)) as H0.
  { rewrite Hfed.
    exists (seq (fed (length ds) (coord s))
              (length ds - fed (length ds) (coord s))).
    rewrite <- seq_app. f_equal. lia. }
  destruct k; [done|..]; repeat (etrans; [done|]); done.
Qed.

Lemma flow_enqueued_le ds s tr k :
  FlowInv ds (s, tr) → length (enqueued k tr) ≤ length ds.
Proof.
  intros Hf. pose proof (flow_enqueued_prefix _ _ _ k Hf) as H.
  apply prefix_length in H. by rewrite length_seq in H.
Qed.

Lemma flow_completed_prefix ds s tr :
  FlowInv ds (s, tr) → completed_dishes s `prefix_of` seq 0 (length ds).
Proof.
  intros Hf. pose proof (flow_completed _ _ Hf) as Hc.
  pose proof (flow_handed_on_prefix _ _ _ Store Hf) as H4.
  unfold handed_on in *. simpl in *. rewrite Hc.
  etrans; [done|]. by eapply flow_enqueued_prefix.
Qed.

(** The numbers of dishes written by the workers decrease along the
    pipeline, so the stages a dish has passed are the first ones. *)
Lemma flow_status_mono ds s tr k k' :
  FlowInv ds (s, tr) → next_stage k = Some k' →
  length (status_set k' tr) ≤ length (status_set k tr).
Proof.
  intros Hf Hn. pose proof (flow_status_chain _ _ _ _ _ Hf Hn) as H.
  assert (length (putting (workers s k')) ≤ length (held (workers s k')))
    by (destruct (workers s k'); simpl; lia).
  lia.
Qed.

Lemma stages_passed_prefix ds s tr d :
  FlowInv ds (s, tr) → stages_passed d tr `prefix_of` all_stages.
Proof.
  intros Hf.
  pose proof (flow_status_mono _ _ _ PreRinse Wash Hf eq_refl).
  pose proof (flow_status_mono _ _ _ Wash Dry Hf eq_refl).
  pose proof (flow_status_mono _ _ _ Dry Store Hf eq_refl).
  unfold stages_passed, all_stages. rewrite !filter_cons, filter_nil.
  repeat (case_decide; try (exfalso; lia)); by eexists.
Qed.

(** ** The coordinator's script *)

Lemma coord_history_prefix n pc :
  fed n pc ≤ n → coord_history n pc `prefix_of` coord_script n.
Proof.
  intros Hle. unfold coord_history, coord_script.
  destruct pc as [k|idx|k| |k| |]; try destruct k;
    cbn [stage_index take all_stages fmap list_fmap].
  all: try (by eexists).
  all: repeat first [ apply prefix_app | apply prefix_cons ].
  all: try (by apply prefix_nil).
  all: try (by eexists).
  simpl in Hle. apply prefix_app_r.
  exists (EvPut PreRinse <$> seq idx (n - idx)).
  rewrite <- fmap_app, <- seq_app. do 2 f_equal. lia.
Qed.

Lemma coord_history_stopped n pc :
  stopped pc = true →
  ((EvStart <$> all_stages) ++ (EvPut PreRinse <$> seq 0 n) ++
   (EvQJoin <$> all_stages) ++ [EvStop]) `prefix_of` coord_history n pc.
Proof.
  intros Hs. unfold coord_history, coord_script.
  destruct pc as [k|idx|k| |k| |]; try done.
  all: repeat apply prefix_app.
  all: by eexists.
Qed.

Lemma coord_history_not_stopped n pc :
  stopped pc = false → EvStop ∉ coord_history n pc.
Proof.
  intros Hs. unfold coord_history.
  destruct pc as [k|idx|k| |k| |]; try done.
  all: rewrite ?elem_of_app, ?list_elem_of_fmap.
  all: intros H; repeat destruct H as [H|H]; by destruct H as (? & ? & ?).
Qed.

Lemma elem_of_coordinator_events e tr :
  e ∈ coordinator_events tr ↔ e ∈ tr ∧ coordinator_event e = true.
Proof. unfold coordinator_events. rewrite list_elem_of_filter. tauto. Qed.

(** ** The sequential baseline *)

Lemma foldl_alter_seq {A} (f : A → A) (l1 l2 : list A) :
  foldl (λ l i, alter f i l) (l1 ++ l2) (seq (length l1) (length l2)) =
  l1 ++ (f <$> l2).
Proof.
  revert l1. induction l2 as [|x l2 IH]; intros l1; [done|].
  change (seq (length l1) (length (x :: l2)))
    with (length l1 :: seq (S (length l1)) (length l2)).
  cbn [foldl fmap list_fmap].
  rewrite alter_app_r_alt by lia. rewrite Nat.sub_diag. cbn [alter list_alter].
  specialize (IH (l1 ++ [f x])).
  rewrite length_app, Nat.add_1_r, <- !app_assoc in IH. apply IH.
Qed.

Lemma sequential_loop_stored ds :
  sequential_loop ds = with_status "stored" <$> ds.
Proof.
  unfold sequential_loop, store, dry, wash, pre_rinse.
  trans (foldl (λ l i, alter (with_status "stored") i l) ds
           (seq 0 (length ds))); [|apply (foldl_alter_seq _ [] ds)].
  generalize (seq 0 (length ds)) as l. generalize ds as acc.
  intros acc l. revert acc. induction l as [|i l IH]; intros acc; [done|].
  simpl. rewrite <- IH. f_equal.
  rewrite !list_alter_alter_eq. by apply list_alter_ext.
Qed.

(** ** Metrics *)

Lemma is_zero_int_pos n : 0 < n → is_zero (VInt (Z.of_nat n)) = false.
Proof. intros Hn. simpl. apply Z.eqb_neq. lia. Qed.

Lemma is_zero_int_nonzero z : z ≠ 0%Z → is_zero (VInt z) = false.
Proof. intros Hz. simpl. by apply Z.eqb_neq. Qed.

Lemma is_zero_float_nonzero q : ¬ (q == 0)%Q → is_zero (VFloat q) = false.
Proof. intros Hq. simpl. apply not_true_is_false. by intros H%Qeq_bool_iff. Qed.

Lemma is_zero_float_zero q : (q == 0)%Q → is_zero (VFloat q) = true.
Proof. intros Hq. simpl. by apply Qeq_bool_iff. Qed.

Lemma done_count ds sched n :
  coord (final ds sched) = CDone n → n = length ds.
Proof.
  intros Hdone. pose proof (inv_run ds sched) as Hinv.
  rewrite run_final_history in Hinv.
  by apply (ctl_done _ _ (inv_ctl _ _ Hinv)).
Qed.

Lemma process_parallel_done num_dishes ds sched elapsed_time n :
  coord (final ds sched) = CDone n →
  process_parallel num_dishes ds sched elapsed_time =
  Some (parallel_metrics num_dishes elapsed_time (length ds)).
Proof.
  intros Hdone. unfold process_parallel. rewrite Hdone.
  by rewrite (done_count _ _ _ Hdone).
Qed.

(** The dict of [process_parallel], whenever neither the count nor the
    elapsed time is zero. *)
Lemma parallel_metrics_returns num_dishes elapsed_time m :
  num_dishes ≠ 0%Z → ¬ (elapsed_time == 0)%Q →
  parallel_metrics num_dishes elapsed_time m =
  inr [("execution_time", VFloat elapsed_time);
       ("throughput", VFloat (inject_Z (Z.of_nat m) / elapsed_time));
       ("avg_time_per_dish",
        if 0 <? m then VFloat (elapsed_time / inject_Z (Z.of_nat m))
        else VInt 0);
       ("dishes_processed", VInt (Z.of_nat m))].
Proof.
  intros Hn He. unfold parallel_metrics, truediv.
  rewrite is_zero_float_nonzero, (is_zero_int_nonzero num_dishes) by done.
  destruct m as [|m]; [done|].
  by rewrite is_zero_int_pos by lia.
Qed.

Lemma parallel_metrics_nonempty n elapsed_time :
  0 < n → ¬ (elapsed_time == 0)%Q →
  parallel_metrics (Z.of_nat n) elapsed_time n =
  inr [("execution_time", VFloat elapsed_time);
       ("throughput", VFloat (inject_Z (Z.of_nat n) / elapsed_time));
       ("avg_time_per_dish", VFloat (elapsed_time / inject_Z (Z.of_nat n)));
       ("dishes_processed", VInt (Z.of_nat n))].
Proof.
  intros Hn He. rewrite parallel_metrics_returns by (done || lia).
  by destruct n; [lia|].
Qed.

Lemma sequential_metrics_nonempty num_dishes elapsed_time :
  num_dishes ≠ 0%Z → ¬ (elapsed_time == 0)%Q →
  sequential_metrics num_dishes elapsed_time =
  inr [("execution_time", VFloat elapsed_time);
       ("throughput", VFloat (inject_Z num_dishes / elapsed_time));
       ("avg_time_per_dish", VFloat (elapsed_time / inject_Z num_dishes));
       ("dishes_processed", VInt num_dishes)].
Proof.
  intros Hn He. unfold sequential_metrics, truediv.
  by rewrite is_zero_float_nonzero, is_zero_int_nonzero by done.
Qed.

Lemma parallel_metrics_empty elapsed_time m :
  parallel_metrics 0 elapsed_time m = raise ZeroDivisionError.
Proof.
  unfold parallel_metrics, truediv.
  destruct (is_zero (VFloat elapsed_time)); [done|].
  destruct (0 <? m); [|done].
  by destruct (is_zero (VInt (Z.of_nat m))).
Qed.

Lemma sequential_metrics_empty elapsed_time :
  sequential_metrics 0 elapsed_time = raise ZeroDivisionError.
Proof.
  unfold sequential_metrics, truediv.
  by destruct (is_zero (VFloat elapsed_time)).
Qed.

Lemma sequential_metrics_raise num_dishes elapsed_time :
  sequential_metrics num_dishes elapsed_time = raise ZeroDivisionError ↔
  num_dishes = 0%Z ∨ (elapsed_time == 0)%Q.
Proof.
  split.
  - intros Hr. destruct (decide (num_dishes = 0%Z)) as [|Hn]; [by left|].
    right. destruct (Qeq_dec elapsed_time 0) as [|He]; [done|].
    by rewrite sequential_metrics_nonempty in Hr.
  - intros [->|He]; [apply sequential_metrics_empty|].
    unfold sequential_metrics, truediv. by rewrite is_zero_float_zero.
Qed.

Lemma parallel_metrics_raise num_dishes elapsed_time m :
  parallel_metrics num_dishes elapsed_time m = raise ZeroDivisionError ↔
  num_dishes = 0%Z ∨ (elapsed_time == 0)%Q.
Proof.
  split.
  - intros Hr. destruct (decide (num_dishes = 0%Z)) as [|Hn]; [by left|].
    right. destruct (Qeq_dec elapsed_time 0) as [|He]; [done|].
    by rewrite parallel_metrics_returns in Hr.
  - intros [->|He]; [apply parallel_metrics_empty|].
    unfold parallel_metrics, truediv. by rewrite is_zero_float_zero.
Qed.

(** ** The two generators *)

Lemma generate_dishes_same {Rng} (random_choice : Rng → list string → string * Rng)
    num_dishes rng :
  sequential_generate_dishes random_choice num_dishes rng =
  parallel_generate_dishes random_choice num_dishes rng.
Proof. reflexivity. Qed.

Lemma generate_dishes_length {Rng}
    (random_choice : Rng → list string → string * Rng) num_dishes rng :
  length (parallel_generate_dishes random_choice num_dishes rng).1 = num_dishes.
Proof.
  unfold parallel_generate_dishes.
  assert (∀ l acc r,
    length (foldl (λ '(dishes, rng) i,
                     let '(dish_type, rng') := random_choice rng dish_types in
                     (dishes ++ [Dish_init (i + 1) dish_type], rng'))
              (acc, r) l).1 = length acc + length l) as H.
  { induction l as [|i l IH]; intros acc r; simpl; [lia|].
    destruct (random_choice r dish_types) as [t r'].
    rewrite IH, length_app. simpl. lia. }
  by rewrite H, length_seq.
Qed.

Lemma init_dishes_same {Rng}
    (random_choice : Rng → list string → string * Rng) num_dishes rng :
  SequentialDishwasher_init random_choice num_dishes rng =
  ParallelDishwasher_init random_choice num_dishes rng.
Proof. reflexivity. Qed.

Lemma init_dishes_length {Rng}
    (random_choice : Rng → list string → string * Rng) num_dishes rng :
  length (ParallelDishwasher_init random_choice num_dishes rng).1 =
  Z.to_nat num_dishes.
Proof. apply generate_dishes_length. Qed.

(** ** Progress *)

Lemma flow_idle_count ds s tr k :
  FlowInv ds (s, tr) → held (workers s k) = [] → acking (workers s k) = [] →
  unfinished_tasks (queues s k) = Z.of_nat (length (queue (queues s k))).
Proof.
  intros Hf Hh Ha. pose proof (flow_count _ _ Hf k) as Hc.
  pose proof (flow_queue _ _ Hf k) as Hq.
  pose proof (flow_worker _ _ Hf k) as Hw.
  pose proof (flow_ack _ _ Hf k) as Hk. simpl in *.
  rewrite Hc, Hq, Hw, Hk, Hh, Ha, !length_app. simpl. lia.
Qed.

Lemma flow_dequeued_lt ds s tr k d rest :
  FlowInv ds (s, tr) → queue (queues s k) = d :: rest →
  length (dequeued k tr) < length ds.
Proof.
  intros Hf Hq. pose proof (flow_enqueued_le _ _ _ k Hf) as Hle.
  pose proof (flow_queue _ _ Hf k) as He. simpl in *.
  rewrite He, Hq, length_app in Hle. simpl in Hle. lia.
Qed.

Lemma waiting_le_1 s k : waiting s k ≤ 1.
Proof. unfold waiting. repeat case_match; lia. Qed.

Lemma waiting_eq s s' k :
  workers s' k = workers s k → queue (queues s' k) = queue (queues s k) →
  waiting s' k = waiting s k.
Proof. unfold waiting. by intros -> ->. Qed.

Lemma stage_work_eq n s tr s' tr' k :
  workers s' k = workers s k → dequeued k tr' = dequeued k tr →
  stage_work n (s', tr') k = stage_work n (s, tr) k.
Proof. unfold stage_work. simpl. by intros -> ->. Qed.

(** A stage that a step does not touch keeps its work and its waiting. *)
Ltac frame :=
  cbn; rewrite ?fn_lookup_insert_ne by done; rewrite ?dequeued_app; cbn;
  repeat (case_decide; simplify_eq); rewrite ?app_nil_r; done.

Ltac frames s tr :=
  repeat match goal with
         | |- context [stage_work ?n (?s', ?tr') ?k] =>
             lazymatch s' with
             | s => fail
             | _ => rewrite (stage_work_eq n s tr s' tr' k) by frame
             end
         | |- context [waiting ?s' ?k] =>
             lazymatch s' with
             | s => fail
             | _ => rewrite (waiting_eq s s' k) by frame
             end
         end.

(** Name the parts of the potential before the step. *)
Ltac name_old s tr :=
  repeat match goal with
         | |- context [stage_work ?n (s, tr) ?k] =>
             let x := fresh "m" in
             remember (stage_work n (s, tr) k) as x
         | |- context [waiting s ?k] =>
             let x := fresh "w" in
             remember (waiting s k) as x
         end.

(** Forget what the named parts of untouched stages stand for. *)
Ltac drop_untouched :=
  repeat match goal with
         | H : ?w = match workers ?s ?k with _ => _ end |- _ =>
             lazymatch goal with
             | |- context [workers s k] => fail
             | |- context [queues s k] => fail
             | _ => clear H
             end
         | H : ?m = _ + cycle_rest (workers _ _) |- _ => clear H
         end.

Lemma potential_step_worker ds s tr k evs s' :
  Inv ds (s, tr) → worker_step k s = Some (evs, s') →
  potential ds (s', tr ++ evs) < potential ds (s, tr) ∨
  (potential ds (s', tr ++ evs) = potential ds (s, tr) ∧
   neutral (Worker k) s s').
Proof.
  intros Hinv Hstep. pose proof (inv_flow _ _ Hinv) as Hf.
  pose proof (flow_idle_count _ _ _ k Hf) as Hidle.
  pose proof (λ d, flow_task_pending ds s tr k d Hf) as Htd.
  pose proof (λ d rest, flow_dequeued_lt _ _ _ k d rest Hf) as Hlt.
  unfold worker_step, Queue_get, Queue_task_done in Hstep.
  destruct (workers s k) eqn:Hpc; try done.
  all: try (specialize (Hidle eq_refl eq_refl)).
  all: destruct k; cbn in Hstep; repeat case_match; simplify_eq.
  all: bool_facts.
  all: try (exfalso; specialize (Htd _ eq_refl); lia).
  all: unfold potential, sum_stages, neutral; cbn [fst snd].
  all: frames s tr; name_old s tr.
  all: unfold stage_work, waiting in *; cbn [fst snd] in *.
  all: cbn -[Nat.mul Nat.sub Nat.add];
    rewrite ?fn_lookup_insert, ?dequeued_app, ?length_app;
    rewrite ?fn_lookup_insert_ne by done;
    rewrite ?Hpc in *; cbn -[Nat.mul Nat.sub Nat.add] in *.
  all: repeat (case_decide; try done); cbn -[Nat.mul Nat.sub Nat.add].
  all: drop_untouched; clear Hinv Hf Htd.
  all: generalize (coord_rest (length ds) (coord s)); intros rest_c.
  all: repeat case_match; simplify_eq; cbn -[Nat.mul Nat.sub Nat.add] in *.
  all: try (specialize (Hlt _ _ eq_refl)).
  all: try (left; lia).
  all: right; split; [lia|]; repeat split; eauto.
Qed.

Lemma stage_work_rest n s tr s' tr' k :
  cycle_rest (workers s' k) = cycle_rest (workers s k) →
  dequeued k tr' = dequeued k tr →
  stage_work n (s', tr') k = stage_work n (s, tr) k.
Proof. unfold stage_work. simpl. by intros -> ->. Qed.

(** The same for a worker that changes its point without a dish. *)
Ltac rest_frames s tr :=
  repeat match goal with
         | |- context [stage_work ?n (?s', ?tr') ?k] =>
             lazymatch s' with
             | s => fail
             | _ => rewrite (stage_work_rest n s tr s' tr' k)
                      by (cbn; rewrite ?fn_lookup_insert, ?dequeued_app;
                          repeat match goal with
                                 | H : workers s _ = _ |- _ => rewrite H
                                 end;
                          rewrite ?app_nil_r; done)
             end
         end.

(** A changed [waiting] is at most 1. *)
Ltac bound_waiting s :=
  repeat match goal with
         | |- context [waiting ?s' ?k] =>
             lazymatch s' with
             | s => fail
             | _ => pose proof (waiting_le_1 s' k);
                    generalize dependent (waiting s' k); intros
             end
         end.

Lemma potential_step_coord ds s tr evs s' :
  Inv ds (s, tr) → coord_step s = Some (evs, s') →
  potential ds (s', tr ++ evs) < potential ds (s, tr).
Proof.
  intros Hinv Hstep. pose proof (inv_flow _ _ Hinv) as Hf.
  pose proof (flow_len _ _ Hf) as Hlen.
  pose proof (flow_started _ _ Hf) as Hst.
  pose proof (flow_fed_le _ _ Hf) as Hfl.
  cbn [fst snd] in *.
  unfold coord_step, Queue_join_ready in Hstep.
  destruct (coord s) eqn:Ec; destruct_stages; cbn in Hstep;
    repeat case_match; simplify_eq.
  all: lookup_bounds; cbn [fed] in Hfl.
  all: unfold potential, sum_stages; cbn [fst snd coord set_coord].
  all: rewrite ?Ec; cbn [coord_rest stage_index].
  all: pose proof (Hst PreRinse) as Hs1; pose proof (Hst Wash) as Hs2;
    pose proof (Hst Dry) as Hs3; pose proof (Hst Store) as Hs4; clear Hst;
    cbn in Hs1, Hs2, Hs3, Hs4; started_facts.
  all: frames s tr.
  all: try lia.
  all: rest_frames s tr; bound_waiting s.
  all: lia.
Qed.


Lemma potential_step ds s tr t evs s' :
  Inv ds (s, tr) → step t s = Some (evs, s') →
  potential ds (s', tr ++ evs) < potential ds (s, tr) ∨
  (potential ds (s', tr ++ evs) = potential ds (s, tr) ∧ neutral t s s').
Proof.
  intros Hinv Hstep. destruct t as [|k].
  - left. by eapply potential_step_coord.
  - eapply potential_step_worker; [done|]. by destruct k.
Qed.

Lemma potential_sched_step ds c t :
  Inv ds c → potential ds (sched_step c t) ≤ potential ds c.
Proof.
  destruct c as [s tr]. intros Hinv. unfold sched_step. simpl.
  destruct (step t s) as [[evs s']|] eqn:Hstep; [|done].
  destruct (potential_step _ _ _ _ _ _ Hinv Hstep) as [?|[? _]]; lia.
Qed.

Lemma potential_exec ds sched c :
  Inv ds c → potential ds (exec sched c) ≤ potential ds c.
Proof.
  revert c. induction sched as [|t sched IH]; intros c Hinv; [done|].
  simpl. etrans; [apply IH; by apply inv_sched_step|].
  by apply potential_sched_step.
Qed.

Lemma finished_sched_step c t : finished c → finished (sched_step c t).
Proof.
  destruct c as [s tr]. intros [n Hn]. unfold sched_step. simpl in *.
  destruct (step t s) as [[evs s']|] eqn:Hstep; [|by exists n].
  exists n. simpl. destruct t as [|k].
  - unfold step, coord_step in Hstep. by rewrite Hn in Hstep.
  - assert (worker_step k s = Some (evs, s')) as Hw by (by destruct k).
    apply worker_step_frame in Hw as (_ & -> & _). done.
Qed.

Lemma finished_exec sched c : finished c → finished (exec sched c).
Proof.
  revert c. induction sched as [|t sched IH]; intros c Hc; [done|].
  simpl. by apply IH, finished_sched_step.
Qed.

Lemma finished_dec c : finished c ∨ ¬ finished c.
Proof.
  unfold finished. destruct (coord c.1) eqn:E; eauto;
    right; intros [? ?]; congruence.
Qed.

(** The step of the helpful thread is enabled and lowers the potential. *)
Lemma helpful_step ds s tr :
  Inv ds (s, tr) → ¬ finished (s, tr) →
  ∃ evs s', step (helpful s) s = Some (evs, s') ∧
            potential ds (s', tr ++ evs) < potential ds (s, tr).
Proof.
  intros Hinv Hnf. unfold helpful.
  assert (∀ evs s', coord_step s = Some (evs, s') →
    ∃ evs s', step Coordinator s = Some (evs, s') ∧
              potential ds (s', tr ++ evs) < potential ds (s, tr)) as Hc.
  { intros evs s' Hstep. exists evs, s'. split; [done|].
    by eapply potential_step_coord. }
  destruct (coord s) eqn:Ec.
  1, 2, 4, 5, 6: unfold coord_step in Hc; rewrite Ec in Hc;
    repeat case_match; by eapply Hc.
  2: { destruct Hnf. by eexists. }
  destruct (Queue_join_ready (queues s k)) eqn:Hr.
  - unfold coord_step in Hc. rewrite Ec, Hr in Hc. by eapply Hc.
  - pose proof (inv_flow _ _ Hinv) as Hf. pose proof (inv_ctl _ _ Hinv) as Hctl.
    pose proof (proj1 (flow_started _ _ Hf k)) as Hnew.
    pose proof (ctl_exit _ _ Hctl k) as Hexit.
    pose proof (ctl_noerr _ _ Hctl k) as Herr.
    pose proof (ctl_stop _ _ Hctl) as Hstop. simpl in *.
    rewrite Ec in *. simpl in *. rewrite Hstop in Hexit.
    assert (∃ evs s', worker_step k s = Some (evs, s')) as (evs & s' & Hstep).
    { unfold worker_step. destruct (workers s k); repeat case_match; eauto;
        try done; by (specialize (Hnew eq_refl) || specialize (Hexit eq_refl)). }
    exists evs, s'. split; [by destruct k|].
    destruct (potential_step_worker _ _ _ _ _ _ Hinv Hstep)
      as [?|[_ (_ & _ & _ & k' & [= <-] & [Hs|H0])]]; [done|..].
    + congruence.
    + unfold Queue_join_ready in Hr. rewrite H0 in Hr. done.
Qed.

Lemma neutral_helpful t s s' : neutral t s s' → helpful s' = helpful s.
Proof. intros (Hc & Hq & _). unfold helpful. by rewrite Hc, Hq. Qed.

(** A stretch of schedule in which the helpful thread occurs lowers the
    potential. *)
Lemma potential_segment ds seg c :
  Inv ds c → ¬ finished c → helpful c.1 ∈ seg →
  potential ds (exec seg c) < potential ds c.
Proof.
  revert c. induction seg as [|t seg IH]; intros [s tr] Hinv Hnf Hin.
  { by apply elem_of_nil in Hin. }
  simpl in *. destruct (helpful_step _ _ _ Hinv Hnf) as (evs & s' & Hh & Hlt).
  pose proof (inv_sched_step _ _ t Hinv) as Hinv'.
  unfold sched_step in *. simpl in *.
  destruct (step t s) as [[evs1 s1]|] eqn:Hstep.
  - destruct (potential_step _ _ _ _ _ _ Hinv Hstep) as [Hd|[He Hn]].
    + eapply Nat.le_lt_trans; [by apply potential_exec|done].
    + assert (t ≠ helpful s) as Hne.
      { intros ->. rewrite Hh in Hstep. simplify_eq. lia. }
      rewrite <- He. apply IH; [done| |].
      * intros [n Hn']. apply Hnf. exists n. simpl in *.
        destruct Hn as (Hc & _). by rewrite <- Hc.
      * simpl. rewrite (neutral_helpful _ _ _ Hn).
        apply elem_of_cons in Hin as [Heq|Hin]; [done|done].
  - apply IH; [done..|].
    apply elem_of_cons in Hin as [Heq|Hin]; [|done].
    rewrite <- Heq, Hh in Hstep. done.
Qed.

Lemma potential_finished ds c : Inv ds c → potential ds c = 0 → finished c.
Proof.
  unfold potential, finished. intros Hinv H.
  pose proof (flow_fed_le _ _ (inv_flow _ _ Hinv)) as Hfl.
  destruct (coord c.1) as [k|idx|k| |k| |n] eqn:E; try destruct k;
    cbn [coord_rest stage_index fed] in *; try lia. eauto.
Qed.

(** Enough fair rounds complete the run, from every configuration that a
    run can reach. *)
Lemma fair_finishes ds rounds sched c :
  Inv ds c → potential ds c ≤ rounds → fair rounds sched →
  finished (exec sched c).
Proof.
  revert sched c. induction rounds as [|r IH]; intros sched c Hinv Hp Hfair.
  - apply finished_exec, (potential_finished ds); [done|lia].
  - destruct Hfair as (seg & rest & -> & Hall & Hrest).
    unfold exec. rewrite fold_left_app. fold (exec seg c).
    fold (exec rest (exec seg c)).
    destruct (finished_dec c) as [Hfin|Hnf].
    + by apply finished_exec, finished_exec.
    + apply IH; [by apply inv_exec| |done].
      pose proof (potential_segment ds seg c Hinv Hnf (Hall _)). lia.
Qed.

(** Every fair schedule with enough rounds brings [process_parallel] to the
    point where it has read the length of the completed list. *)
Lemma run_completes ds sched :
  fair (enough_rounds ds) sched → ∃ n, coord (final ds sched) = CDone n.
Proof.
  intros Hfair. apply (fair_finishes ds (enough_rounds ds)); [|done..].
  apply inv_init.
Qed.

Lemma round_all t : t ∈ round.
Proof. unfold round. destruct t as [|[]]; repeat constructor. Qed.

Lemma round_robin_fair rounds : fair rounds (round_robin rounds).
Proof.
  induction rounds as [|r IH]; [done|].
  exists round, (round_robin r). split; [done|]. split; [apply round_all|done].
Qed.

(** ** Counting the dishes at a stage *)

Lemma flow_numbers ds s tr k :
  FlowInv ds (s, tr) →
  length (enqueued k tr) =
    length (dequeued k tr) + length (queue (queues s k)) ∧
  length (dequeued k tr) =
    length (handed_on k tr) + length (held (workers s k)) ∧
  length (status_set k tr) =
    length (handed_on k tr) + length (putting (workers s k)) ∧
  length (enqueued k tr) ≤ length ds.
Proof.
  intros Hf. pose proof (flow_queue _ _ Hf k) as Hq.
  pose proof (flow_worker _ _ Hf k) as Hw.
  pose proof (flow_status _ _ Hf k) as Hs. simpl in *.
  apply (f_equal length) in Hq, Hw, Hs. rewrite length_app in Hq, Hw, Hs.
  repeat split; try done. by eapply flow_enqueued_le.
Qed.

Lemma elem_of_seq_prefix (l1 l2 : list nat) n d :
  seq 0 n = l1 ++ l2 → d ∈ l2 → length l1 ≤ d < length l1 + length l2.
Proof.
  intros Hseq [i Hi]%list_elem_of_lookup.
  assert (seq 0 n !! (length l1 + i) = Some d) as Hd.
  { rewrite Hseq, lookup_app_r by lia.
    by replace (length l1 + i - length l1) with i by lia. }
  apply lookup_seq in Hd. apply lookup_lt_Some in Hi. lia.
Qed.

Lemma flow_queue_range ds s tr k d :
  FlowInv ds (s, tr) → d ∈ queue (queues s k) →
  length (dequeued k tr) ≤ d < length (enqueued k tr).
Proof.
  intros Hf Hin. pose proof (flow_enqueued_seq _ _ _ k Hf) as He.
  pose proof (flow_queue _ _ Hf k) as Hq. simpl in *.
  assert (seq 0 (length (enqueued k tr)) =
          dequeued k tr ++ queue (queues s k)) as He' by congruence.
  pose proof (elem_of_seq_prefix _ _ _ _ He' Hin) as Hr.
  apply (f_equal length) in Hq. rewrite length_app in Hq. lia.
Qed.

Lemma flow_handed_range ds s tr k d :
  FlowInv ds (s, tr) → d ∈ handed_on k tr → d < length (handed_on k tr).
Proof.
  intros Hf Hin. pose proof (flow_enqueued_seq _ _ _ k Hf) as He.
  pose proof (flow_queue _ _ Hf k) as Hq.
  pose proof (flow_worker _ _ Hf k) as Hw. simpl in *.
  rewrite Hq, Hw, <- app_assoc in He. symmetry in He.
  apply seq_app_prefix in He. rewrite He in Hin.
  apply elem_of_seq in Hin. lia.
Qed.

(** The status of dish [d] when it has passed the first [i] stages. *)
Lemma status_passed ds s tr d x0 :
  StatusInv ds (s, tr) → ds !! d = Some x0 →
  status <$> dishes s !! d =
  Some (default (status x0) (last (target_status <$> stages_passed d tr))).
Proof.
  intros [Hds Hwr] Hx0. simpl in *. rewrite (Hds _ _ Hx0), Hwr.
  unfold current. simpl.
  by destruct (last (target_status <$> stages_passed d tr)).
Qed.
Lemma status_before_stage ds s tr d x0 k :
  StatusInv ds (s, tr) → ds !! d = Some x0 → status x0 = "dirty" →
  (∀ j, stage_index j < stage_index k → d < length (status_set j tr)) →
  (∀ j, stage_index k ≤ stage_index j → length (status_set j tr) ≤ d) →
  status <$> dishes s !! d = Some (input_status k).
Proof.
  intros Hst Hx0 Hdirty Hlt Hge. rewrite (status_passed _ _ _ _ _ Hst Hx0).
  pose proof (Hlt PreRinse). pose proof (Hlt Wash). pose proof (Hlt Dry).
  pose proof (Hlt Store). pose proof (Hge PreRinse). pose proof (Hge Wash).
  pose proof (Hge Dry). pose proof (Hge Store). clear Hlt Hge.
  unfold stages_passed, all_stages. rewrite !filter_cons, filter_nil.
  destruct k; simpl in *;
    repeat (case_decide; try (exfalso; lia)); simpl; by rewrite ?Hdirty.
Qed.

Lemma status_after_stage ds s tr d x0 k :
  StatusInv ds (s, tr) → ds !! d = Some x0 →
  (∀ j, stage_index j ≤ stage_index k → d < length (status_set j tr)) →
  (∀ j, stage_index k < stage_index j → length (status_set j tr) ≤ d) →
  status <$> dishes s !! d = Some (target_status k).
Proof.
  intros Hst Hx0 Hlt Hge. rewrite (status_passed _ _ _ _ _ Hst Hx0).
  pose proof (Hlt PreRinse). pose proof (Hlt Wash). pose proof (Hlt Dry).
  pose proof (Hlt Store). pose proof (Hge PreRinse). pose proof (Hge Wash).
  pose proof (Hge Dry). pose proof (Hge Store). clear Hlt Hge.
  unfold stages_passed, all_stages. rewrite !filter_cons, filter_nil.
  destruct k; simpl in *;
    repeat (case_decide; try (exfalso; lia)); simpl; done.
Qed.

(** The counts of all four stages, for arithmetic. *)
Ltac stage_counts Hf s tr :=
  pose proof (flow_numbers _ _ _ PreRinse Hf) as (? & ? & ? & ?);
  pose proof (flow_numbers _ _ _ Wash Hf) as (? & ? & ? & ?);
  pose proof (flow_numbers _ _ _ Dry Hf) as (? & ? & ? & ?);
  pose proof (flow_numbers _ _ _ Store Hf) as (? & ? & ? & ?);
  assert (length (putting (workers s PreRinse)) ≤
          length (held (workers s PreRinse)))
    by (destruct (workers s PreRinse); simpl; lia);
  assert (length (putting (workers s Wash)) ≤
          length (held (workers s Wash)))
    by (destruct (workers s Wash); simpl; lia);
  assert (length (putting (workers s Dry)) ≤
          length (held (workers s Dry)))
    by (destruct (workers s Dry); simpl; lia);
  assert (length (putting (workers s Store)) ≤
          length (held (workers s Store)))
    by (destruct (workers s Store); simpl; lia);
  unfold handed_on in *; cbn [next_stage] in *.

(** ** Behind a stage *)

(** What the worker of stage [k] has handed on is what lies behind the
    stage. *)
Lemma flow_downstream ds s tr k :
  FlowInv ds (s, tr) → handed_on k tr = downstream s k.
Proof.
  intros Hf. pose proof (flow_completed _ _ Hf) as Hc.
  pose proof (flow_queue _ _ Hf) as Hq.
  pose proof (flow_worker _ _ Hf) as Hw. simpl in *.
  assert (handed_on Store tr = downstream s Store) as H4
    by (unfold handed_on, downstream; simpl; done).
  assert (handed_on Dry tr = downstream s Dry) as H3.
  { unfold handed_on at 1. simpl. rewrite (Hq Store), (Hw Store), H4.
    unfold downstream. by rewrite <- !app_assoc. }
  assert (handed_on Wash tr = downstream s Wash) as H2.
  { unfold handed_on at 1. simpl. rewrite (Hq Dry), (Hw Dry), H3.
    unfold downstream. by rewrite <- !app_assoc. }
  destruct k; try done.
  unfold handed_on at 1. simpl. rewrite (Hq Wash), (Hw Wash), H2.
  unfold downstream. by rewrite <- !app_assoc.
Qed.

(** The dish a worker holds is not behind its stage yet. *)
Lemma flow_held_not_downstream ds s tr k d :
  FlowInv ds (s, tr) → held (workers s k) = [d] → d ∉ downstream s k.
Proof.
  intros Hf Hheld Hin. rewrite <- (flow_downstream _ _ _ _ Hf) in Hin.
  pose proof (flow_held_next _ _ _ _ _ Hf Hheld).
  pose proof (flow_handed_range _ _ _ _ _ Hf Hin). lia.
Qed.

(** The dish a worker is about to acknowledge is behind its stage. *)
Lemma flow_acking_downstream ds s tr k d :
  FlowInv ds (s, tr) → workers s k = WTaskDone d → d ∈ downstream s k.
Proof.
  intros Hf Hpc. rewrite <- (flow_downstream _ _ _ _ Hf).
  pose proof (flow_ack _ _ Hf k) as Ha. simpl in Ha.
  rewrite Ha, Hpc. simpl. apply elem_of_app. right. apply list_elem_of_here.
Qed.

(** At the hand-over the dish carries the status of the stage. *)
Lemma inv_status_putting ds s tr k d :
  Inv ds (s, tr) → workers s k = WPut d →
  status <$> dishes s !! d = Some (target_status k).
Proof.
  intros Hinv Hpc. pose proof (inv_flow _ _ Hinv) as Hf.
  assert (held (workers s k) = [d]) as Hheld by (by rewrite Hpc).
  pose proof (flow_held_next _ _ _ _ _ Hf Hheld) as Hd0.
  assert (length (held (workers s k)) = 1) as Hh1 by (by rewrite Hheld).
  assert (length (putting (workers s k)) = 1) as Hp1 by (by rewrite Hpc).
  assert (d < length ds) as Hd.
  { pose proof (flow_numbers _ _ _ k Hf). lia. }
  stage_counts Hf s tr.
  destruct (lookup_lt_is_Some_2 ds d Hd) as [x0 Hx0].
  apply (status_after_stage ds s tr d x0 k); [apply Hinv|done|..].
  - intros j Hj. destruct k, j; simpl in *; lia.
  - intros j Hj. destruct k, j; simpl in *; lia.
Qed.

(** A dish that the worker of stage [k] has written carries the status of
    stage [k] or of a later stage. *)
Lemma inv_status_written ds s tr k d :
  Inv ds (s, tr) → d < length (status_set k tr) →
  ∃ j, stage_index k ≤ stage_index j ∧
       status <$> dishes s !! d = Some (target_status j).
Proof.
  intros Hinv Hlt. pose proof (inv_flow _ _ Hinv) as Hf.
  assert (d < length ds) as Hd.
  { pose proof (flow_numbers _ _ _ k Hf) as (? & ? & ? & ?).
    assert (length (putting (workers s k)) ≤ length (held (workers s k)))
      by (destruct (workers s k); simpl; lia).
    lia. }
  destruct (lookup_lt_is_Some_2 ds d Hd) as [x0 Hx0].
  rewrite (status_passed _ _ _ _ _ (inv_status _ _ Hinv) Hx0).
  pose proof (flow_status_mono _ _ _ PreRinse Wash Hf eq_refl).
  pose proof (flow_status_mono _ _ _ Wash Dry Hf eq_refl).
  pose proof (flow_status_mono _ _ _ Dry Store Hf eq_refl).
  unfold stages_passed, all_stages. rewrite !filter_cons, filter_nil.
  destruct k; simpl in *;
    repeat (case_decide; try (exfalso; lia)); simpl;
    first [ by exists Store; split; [simpl; lia|]
          | by exists Dry; split; [simpl; lia|]
          | by exists Wash; split; [simpl; lia|]
          | by exists PreRinse; split; [simpl; lia|] ].
Qed.

Lemma inv_status_downstream ds s tr k d :
  Inv ds (s, tr) → d ∈ downstream s k →
  ∃ j, stage_index k ≤ stage_index j ∧
       status <$> dishes s !! d = Some (target_status j).
Proof.
  intros Hinv Hin. pose proof (inv_flow _ _ Hinv) as Hf.
  rewrite <- (flow_downstream _ _ _ _ Hf) in Hin.
  pose proof (flow_handed_range _ _ _ _ _ Hf Hin) as Hr.
  apply (inv_status_written ds s tr k d Hinv).
  pose proof (flow_numbers _ _ _ k Hf) as (_ & _ & Hs & _). lia.
Qed.

(** * The claims *)

(** C1: every fair schedule with enough rounds brings [process_parallel] to
    the reading of [len(self.completed_dishes)]; and whenever a run has got
    there, the value read is the number of dishes, the completed list holds
    every dish exactly once, and every dish has status stored. *)
Theorem C1_all_stored_none_lost ds sched :
  (fair (enough_rounds ds) sched → ∃ n, coord (final ds sched) = CDone n) ∧
  ∀ n, coord (final ds sched) = CDone n →
       n = length ds ∧
       length (completed_dishes (final ds sched)) = length ds ∧
       NoDup (completed_dishes (final ds sched)) ∧
       (∀ d, d < length ds ↔ d ∈ completed_dishes (final ds sched)) ∧
       Forall (λ x, status x = "stored") (dishes (final ds sched)).
Proof.
  split; [apply run_completes|].
  intros n Hdone. pose proof (inv_run ds sched) as Hinv.
  rewrite run_final_history in Hinv.
  pose proof (done_drained _ _ Hdone) as Hd.
  pose proof (inv_drained_all _ _ _ Hinv Hd) as [Hc _].
  pose proof (inv_drained_dishes _ _ _ Hinv Hd) as Hds.
  split; [by apply (ctl_done _ _ (inv_ctl _ _ Hinv))|].
  rewrite Hc, Hds. repeat split.
  - by rewrite length_seq.
  - apply NoDup_seq.
  - intros H. apply elem_of_seq. lia.
  - intros H%elem_of_seq. lia.
  - apply Forall_fmap, Forall_true. done.
Qed.

Lemma C1_witness :
  (∃ n, coord (final demo_dishes
                 (round_robin (enough_rounds demo_dishes))) = CDone n) ∧
  3 = length demo_dishes ∧
  length (completed_dishes (final demo_dishes (round_robin 40))) =
    length demo_dishes.
Proof.
  split.
  - apply (C1_all_stored_none_lost demo_dishes), round_robin_fair.
  - pose proof (proj2 (C1_all_stored_none_lost demo_dishes (round_robin 40)) 3)
      as H.
    split; apply H; vm_compute; reflexivity.
Defined.

(** C2: a dish is created dirty; the values its status takes, from its
    creation on, are an initial segment of dirty, pre-rinsed, washed, dried,
    stored; the dish carries the last of them; and when the coordinator is
    done they are all five. *)
Theorem C2_status_lifecycle ds sched d id type :
  ds !! d = Some (Dish_init id type) →
  status (Dish_init id type) = "dirty" ∧
  (status (Dish_init id type) :: status_writes d (history ds sched))
    `prefix_of` lifecycle ∧
  status <$> dishes (final ds sched) !! d =
    last (status (Dish_init id type) :: status_writes d (history ds sched)) ∧
  ∀ n, coord (final ds sched) = CDone n →
       status (Dish_init id type) :: status_writes d (history ds sched) =
       lifecycle.
Proof.
  intros Hd. pose proof (inv_run ds sched) as Hinv.
  rewrite run_final_history in Hinv.
  pose proof (inv_flow _ _ Hinv) as Hf.
  destruct (inv_status _ _ Hinv) as [Hds Hwr]. simpl in *.
  split; [done|]. split; [|split].
  - rewrite Hwr.
    destruct (stages_passed_prefix _ _ _ d Hf) as [l Hl].
    exists (target_status <$> l). unfold lifecycle.
    change ["dirty"; "pre-rinsed"; "washed"; "dried"; "stored"]
      with ("dirty" :: (target_status <$> all_stages)).
    by rewrite Hl, fmap_app.
  - rewrite (Hds _ _ Hd). unfold current. simpl.
    destruct (status_writes d (history ds sched)) as [|v l] using rev_ind;
      [done|].
    by rewrite last_snoc, last_cons, last_snoc.
  - intros n Hdone. pose proof (done_drained _ _ Hdone) as Hdr.
    pose proof (inv_drained_all _ _ _ Hinv Hdr) as [_ Hall].
    rewrite Hwr, (stages_passed_all _ _ (length ds)); [done| |].
    + intros k. apply Hall.
    + by eapply lookup_lt_Some.
Qed.

Lemma C2_witness :
  (status (Dish_init 2 "bowl") ::
     status_writes 1 (history demo_dishes (round_robin 12)))
    `prefix_of` lifecycle ∧
  status (Dish_init 2 "bowl") ::
    status_writes 1 (history demo_dishes (round_robin 40)) = lifecycle.
Proof.
  split.
  - refine (proj1 (proj2
      (C2_status_lifecycle demo_dishes (round_robin 12) 1 2 "bowl" _))).
    reflexivity.
  - refine (proj2 (proj2 (proj2
      (C2_status_lifecycle demo_dishes (round_robin 40) 1 2 "bowl" _))) 3 _).
    + reflexivity.
    + vm_compute. reflexivity.
Defined.

(** C3: the coordinator's events are an initial segment of its script
    (the four starts, the puts into queue_1, the joins of queue_1, queue_2,
    queue_3 and queue_4 in this order, the setting of the stop flag, the four
    thread joins); the stop flag is set only by the coordinator's
    [stop_event.set()], which comes after the return of all four queue
    joins; and a thread join always returns, whatever its worker does. *)
Theorem C3_drain_order_then_stop ds sched :
  coordinator_events (history ds sched) `prefix_of` coord_script (length ds) ∧
  (stop_event (final ds sched) = true →
   ((EvStart <$> all_stages) ++ (EvPut PreRinse <$> seq 0 (length ds)) ++
    (EvQJoin <$> all_stages) ++ [EvStop])
     `prefix_of` coordinator_events (history ds sched)) ∧
  (stop_event (final ds sched) = false → EvStop ∉ history ds sched) ∧
  (∀ k, coord (final ds sched) = CTJoin k →
        ∃ s', step Coordinator (final ds sched) = Some ([EvTJoin k], s')).
Proof.
  pose proof (inv_run ds sched) as Hinv. rewrite run_final_history in Hinv.
  pose proof (inv_ctl _ _ Hinv) as Hctl.
  pose proof (ctl_coord _ _ Hctl) as Hco.
  pose proof (ctl_stop _ _ Hctl) as Hstop.
  pose proof (flow_fed_le _ _ (inv_flow _ _ Hinv)) as Hfl. simpl in *.
  rewrite Hco, Hstop. repeat split.
  - by apply coord_history_prefix.
  - apply coord_history_stopped.
  - intros Hs Hin. apply (coord_history_not_stopped (length ds) _ Hs).
    rewrite <- Hco. by apply elem_of_coordinator_events.
  - intros k Hk. unfold coord_step. rewrite Hk. eauto.
Qed.

Lemma C3_witness :
  ((EvStart <$> all_stages) ++
   (EvPut PreRinse <$> seq 0 (length demo_dishes)) ++
   (EvQJoin <$> all_stages) ++ [EvStop])
    `prefix_of` coordinator_events (history demo_dishes (round_robin 40)) ∧
  EvStop ∉ history demo_dishes (round_robin 30).
Proof.
  split.
  - apply (C3_drain_order_then_stop demo_dishes (round_robin 40)).
    vm_compute. reflexivity.
  - apply (C3_drain_order_then_stop demo_dishes (round_robin 30)).
    vm_compute. reflexivity.
Defined.

(** C4: what a worker does with a dish it has got, in the events and in the
    state.  The events of a worker, polls of an empty queue aside, are one
    full cycle (get, status assignment, hand-over to the output, task_done)
    per acknowledged dish, in this order, and then the begun cycle of the
    dish it works on.  The dishes it has handed over are those that lie
    behind its stage, in a later queue, in the hands of a later worker or in
    the completed list.  A dish that the worker still holds is not behind the
    stage; at the hand-over it carries the status of the stage.  A dish at
    the [task_done] is behind the stage, and is still counted by the queue.
    Every dish behind the stage carries the status of this stage or of a
    later one.  Hence once the join of the queue has returned, the queue is
    empty, its worker holds no dish and acknowledges none, and every dish
    that was ever put into the queue lies behind the stage. *)
Theorem C4_status_then_handover_then_task_done ds sched k :
  worker_events k (history ds sched) =
    (acknowledged k (history ds sched) ≫= cycle k) ++
    partial_cycle k (workers (final ds sched) k) ∧
  handed_on k (history ds sched) = downstream (final ds sched) k ∧
  (∀ d, held (workers (final ds sched) k) = [d] →
        d ∉ downstream (final ds sched) k) ∧
  (∀ d, workers (final ds sched) k = WPut d →
        status <$> dishes (final ds sched) !! d = Some (target_status k)) ∧
  (∀ d, workers (final ds sched) k = WTaskDone d →
        d ∈ downstream (final ds sched) k ∧
        (1 ≤ unfinished_tasks (queues (final ds sched) k))%Z) ∧
  (∀ d, d ∈ downstream (final ds sched) k →
        ∃ j, stage_index k ≤ stage_index j ∧
             status <$> dishes (final ds sched) !! d =
               Some (target_status j)) ∧
  (drained (coord (final ds sched)) k = true →
   queue (queues (final ds sched) k) = [] ∧
   held (workers (final ds sched) k) = [] ∧
   acking (workers (final ds sched) k) = [] ∧
   downstream (final ds sched) k = enqueued k (history ds sched)).
Proof.
  pose proof (inv_run ds sched) as Hinv. rewrite run_final_history in Hinv.
  pose proof (inv_flow _ _ Hinv) as Hf.
  split; [apply (inv_cycle _ _ Hinv)|].
  split; [by eapply flow_downstream|].
  split; [intros d; by eapply flow_held_not_downstream|].
  split; [intros d; by eapply inv_status_putting|].
  split; [|split].
  - intros d Hpc. split; [by eapply flow_acking_downstream|].
    by eapply flow_task_pending.
  - intros d. by eapply inv_status_downstream.
  - intros Hd. pose proof (ctl_drained _ _ (inv_ctl _ _ Hinv) k Hd) as H0.
    pose proof (flow_drained _ _ _ k Hf H0) as (?&?&?&_&Hh&_).
    rewrite <- (flow_downstream _ _ _ _ Hf). done.
Qed.

Lemma C4_witness :
  status <$> dishes (final demo_dishes (round_robin 14)) !! 0 =
    Some (target_status Dry) ∧
  (0 ∉ downstream (final demo_dishes (round_robin 14)) Dry) ∧
  downstream (final demo_dishes (round_robin 30)) Dry =
    enqueued Dry (history demo_dishes (round_robin 30)).
Proof.
  split; [|split].
  - apply (proj1 (proj2 (proj2 (proj2
      (C4_status_then_handover_then_task_done
         demo_dishes (round_robin 14) Dry)))) 0).
    vm_compute. reflexivity.
  - apply (proj1 (proj2 (proj2
      (C4_status_then_handover_then_task_done
         demo_dishes (round_robin 14) Dry))) 0).
    vm_compute. reflexivity.
  - apply (proj2 (proj2 (proj2 (proj2 (proj2 (proj2
      (C4_status_then_handover_then_task_done
         demo_dishes (round_robin 30) Dry))))))).
    vm_compute. reflexivity.
Defined.

(** C5: in every run of [process_parallel], a worker that has left its loop
    did so with the stop flag set and with its input queue empty and fully
    acknowledged. *)
Theorem C5_exit_only_when_stopped_and_empty ds sched k :
  workers (final ds sched) k = WExit →
  stop_event (final ds sched) = true ∧
  queue (queues (final ds sched) k) = [] ∧
  unfinished_tasks (queues (final ds sched) k) = 0%Z.
Proof.
  intros Hexit. pose proof (inv_run ds sched) as Hinv.
  rewrite run_final_history in Hinv.
  pose proof (inv_ctl _ _ Hinv) as Hctl.
  pose proof (ctl_exit _ _ Hctl k Hexit) as Hstop. simpl in *.
  assert (drained (coord (final ds sched)) Store = true) as Hd.
  { pose proof (ctl_stop _ _ Hctl) as Hs. simpl in Hs. rewrite Hstop in Hs.
    by destruct (coord (final ds sched)). }
  split; [done|]. split.
  - by apply (inv_drained_all _ _ _ Hinv Hd).
  - apply (ctl_drained _ _ Hctl). by apply drained_all.
Qed.

Lemma C5_witness :
  stop_event (final demo_dishes (round_robin 40)) = true ∧
  queue (queues (final demo_dishes (round_robin 40)) Wash) = [] ∧
  unfinished_tasks (queues (final demo_dishes (round_robin 40)) Wash) = 0%Z.
Proof.
  apply (C5_exit_only_when_stopped_and_empty demo_dishes (round_robin 40) Wash).
  vm_compute. reflexivity.
Defined.

(** C6 (the code departs from the claim): with no dishes, every fair
    schedule with enough rounds brings [process_parallel] to its metrics,
    and there it raises ZeroDivisionError, in the print of the pipeline
    efficiency (or before, if no time has elapsed); [process_sequential]
    raises it in the average time per dish (or before).  Neither returns
    metrics. *)
Theorem C6_zero_dishes_division_fault sched elapsed_time :
  (fair (enough_rounds []) sched → ∃ n, coord (final [] sched) = CDone n) ∧
  (∀ n, coord (final [] sched) = CDone n →
        process_parallel 0 [] sched elapsed_time =
        Some (raise ZeroDivisionError)) ∧
  (process_sequential 0 [] elapsed_time).2 = raise ZeroDivisionError.
Proof.
  split; [apply run_completes|]. split.
  - intros n Hdone. rewrite (process_parallel_done _ _ _ _ _ Hdone). simpl.
    by rewrite parallel_metrics_empty.
  - simpl. by rewrite sequential_metrics_empty.
Qed.

Lemma C6_witness :
  process_parallel 0 [] (round_robin 20) 1 = Some (raise ZeroDivisionError).
Proof.
  apply (proj1 (proj2 (C6_zero_dishes_division_fault (round_robin 20) 1)) 0).
  vm_compute. reflexivity.
Defined.

(** C7 (the code departs from the claim, by the defect of C6).  The spec
    writes item where the code writes dish: its fields avg_time_per_item and
    items_processed are the keys avg_time_per_dish and dishes_processed.
    For a dishwasher whose dishes [ds] were generated for the count
    [num_dishes]: every fair schedule with enough rounds brings
    [process_parallel] to its metrics; the number it has read there is the
    length of the completed list.  With a positive count and a nonzero
    elapsed time it returns the dict with exactly the four keys, where
    throughput is completed / elapsed and avg_time_per_dish is
    elapsed / completed; [process_sequential] returns the same record, with
    the number of its dishes for completed.  With the count zero both raise
    ZeroDivisionError instead, and also when no time has elapsed: no record
    is returned. *)
Theorem C7_metrics_record num_dishes ds sched elapsed_time :
  length ds = Z.to_nat num_dishes →
  (fair (enough_rounds ds) sched → ∃ n, coord (final ds sched) = CDone n) ∧
  (∀ n, coord (final ds sched) = CDone n →
    n = length (completed_dishes (final ds sched)) ∧
    ((0 < num_dishes)%Z → ¬ (elapsed_time == 0)%Q →
     process_parallel num_dishes ds sched elapsed_time =
     Some (inr
       [("execution_time", VFloat elapsed_time);
        ("throughput", VFloat (inject_Z (Z.of_nat n) / elapsed_time));
        ("avg_time_per_dish",
         VFloat (elapsed_time / inject_Z (Z.of_nat n)));
        ("dishes_processed", VInt (Z.of_nat n))])) ∧
    (num_dishes = 0%Z ∨ (elapsed_time == 0)%Q →
     process_parallel num_dishes ds sched elapsed_time =
     Some (raise ZeroDivisionError))) ∧
  ((0 < num_dishes)%Z → ¬ (elapsed_time == 0)%Q →
   (process_sequential num_dishes ds elapsed_time).2 =
   inr [("execution_time", VFloat elapsed_time);
        ("throughput",
         VFloat (inject_Z (Z.of_nat (length ds)) / elapsed_time));
        ("avg_time_per_dish",
         VFloat (elapsed_time / inject_Z (Z.of_nat (length ds))));
        ("dishes_processed", VInt (Z.of_nat (length ds)))]) ∧
  (num_dishes = 0%Z ∨ (elapsed_time == 0)%Q →
   (process_sequential num_dishes ds elapsed_time).2 =
   raise ZeroDivisionError).
Proof.
  intros Hlen. split; [apply run_completes|]. split; [|split].
  - intros n Hdone. rewrite (process_parallel_done _ _ _ _ _ Hdone).
    pose proof (inv_run ds sched) as Hinv. rewrite run_final_history in Hinv.
    destruct (inv_drained_all _ _ _ Hinv (done_drained _ _ Hdone)) as [Hc _].
    pose proof (done_count _ _ _ Hdone) as ->.
    split; [by rewrite Hc, length_seq|]. split.
    + intros Hn He. assert (num_dishes = Z.of_nat (length ds)) as -> by lia.
      rewrite parallel_metrics_nonempty by (done || lia). done.
    + intros H. f_equal. by apply parallel_metrics_raise.
  - intros Hn He. assert (num_dishes = Z.of_nat (length ds)) as Heq by lia.
    simpl. rewrite sequential_metrics_nonempty by (done || lia).
    by rewrite Heq.
  - intros H. simpl. by apply sequential_metrics_raise.
Qed.

Lemma C7_witness :
  process_parallel 0 [] (round_robin 20) 1 = Some (raise ZeroDivisionError) ∧
  (process_sequential 0 [] 1).2 = raise ZeroDivisionError ∧
  process_parallel 3 demo_dishes (round_robin 40) 2 =
    Some (inr
      [("execution_time", VFloat 2);
       ("throughput", VFloat (inject_Z (Z.of_nat 3) / 2));
       ("avg_time_per_dish", VFloat (2 / inject_Z (Z.of_nat 3)));
       ("dishes_processed", VInt (Z.of_nat 3))]).
Proof.
  split; [|split].
  - refine (proj2 (proj2 (proj1 (proj2
      (C7_metrics_record 0 [] (round_robin 20) 1 _)) 0 _)) _).
    + reflexivity.
    + vm_compute. reflexivity.
    + left. reflexivity.
  - refine (proj2 (proj2 (proj2
      (C7_metrics_record 0 [] (round_robin 20) 1 _))) _).
    + reflexivity.
    + left. reflexivity.
  - refine (proj1 (proj2 (proj1 (proj2
      (C7_metrics_record 3 demo_dishes (round_robin 40) 2 _)) 3 _)) _ _).
    + reflexivity.
    + vm_compute. reflexivity.
    + lia.
    + intros H. vm_compute in H. discriminate H.
Defined.

(** C8 (the code departs from the claim, by the defect of C6).  For every
    count, also zero or below, and every state of the random number
    generator: the two constructors generate the same dishes, as many as
    [range] of the count has elements; every fair schedule with enough
    rounds completes the parallel run; after both runs the dishes carry the
    same statuses, every one stored.  For a positive count and nonzero
    elapsed times both runs yield a dict, and dishes_processed is the count
    in both.  In general, [process_sequential] yields a dict
    exactly when neither the count nor the elapsed time is zero, and its
    dishes_processed is then the count; [process_parallel] yields a dict
    exactly when neither the count nor the elapsed time is zero, and its
    dishes_processed is then the number of dishes.  So the two values are
    the same for a positive count; for the count zero both runs raise
    ZeroDivisionError and yield no value; for a count below zero they
    differ. *)
Theorem C8_same_statuses_and_count {Rng}
    (random_choice : Rng → list string → string * Rng)
    (num_dishes : Z) rng sched e_seq e_par :
  let seq_dishes := (SequentialDishwasher_init random_choice num_dishes rng).1 in
  let par_dishes := (ParallelDishwasher_init random_choice num_dishes rng).1 in
  seq_dishes = par_dishes ∧
  Z.of_nat (length par_dishes) = Z.max 0 num_dishes ∧
  (fair (enough_rounds par_dishes) sched →
   ∃ n, coord (final par_dishes sched) = CDone n) ∧
  ∀ n, coord (final par_dishes sched) = CDone n →
    status <$> (process_sequential num_dishes seq_dishes e_seq).1 =
      status <$> dishes (final par_dishes sched) ∧
    Forall (λ x, status x = "stored") (dishes (final par_dishes sched)) ∧
    ((0 < num_dishes)%Z → ¬ (e_seq == 0)%Q → ¬ (e_par == 0)%Q →
     ∃ r_seq r_par,
       (process_sequential num_dishes seq_dishes e_seq).2 = inr r_seq ∧
       process_parallel num_dishes par_dishes sched e_par =
         Some (inr r_par) ∧
       dict_get "dishes_processed" r_seq = Some (VInt num_dishes) ∧
       dict_get "dishes_processed" r_par = Some (VInt num_dishes)) ∧
    (num_dishes ≠ 0%Z → ¬ (e_seq == 0)%Q →
     ∃ r, (process_sequential num_dishes seq_dishes e_seq).2 = inr r ∧
          dict_get "dishes_processed" r = Some (VInt num_dishes)) ∧
    (num_dishes ≠ 0%Z → ¬ (e_par == 0)%Q →
     ∃ r, process_parallel num_dishes par_dishes sched e_par = Some (inr r) ∧
          dict_get "dishes_processed" r = Some (VInt (Z.max 0 num_dishes))) ∧
    (num_dishes = 0%Z ∨ (e_seq == 0)%Q →
     (process_sequential num_dishes seq_dishes e_seq).2 =
     raise ZeroDivisionError) ∧
    (num_dishes = 0%Z ∨ (e_par == 0)%Q →
     process_parallel num_dishes par_dishes sched e_par =
     Some (raise ZeroDivisionError)).
Proof.
  intros seq_dishes par_dishes.
  assert (seq_dishes = par_dishes) as Heq
    by (unfold seq_dishes; by rewrite init_dishes_same).
  assert (Z.of_nat (length par_dishes) = Z.max 0 num_dishes) as Hlen.
  { unfold par_dishes. rewrite init_dishes_length. lia. }
  split; [done|]. split; [done|]. split; [apply run_completes|].
  intros n Hdone. rewrite Heq.
  pose proof (inv_run par_dishes sched) as Hinv.
  rewrite run_final_history in Hinv.
  pose proof (inv_drained_dishes _ _ _ Hinv (done_drained _ _ Hdone)) as Hds.
  rewrite (process_parallel_done _ _ _ _ _ Hdone).
  split; [|split; [|split; [|split; [|split; [|split]]]]].
  - simpl. by rewrite sequential_loop_stored, Hds.
  - rewrite Hds. apply Forall_fmap, Forall_true. done.
  - intros Hn Hes Hep. eexists _, _. split; [|split; [|split]].
    + simpl. apply sequential_metrics_nonempty; [lia|done].
    + f_equal. apply parallel_metrics_returns; [lia|done].
    + done.
    + simpl. rewrite Hlen. f_equal. f_equal. lia.
  - intros Hn He. eexists. split.
    + simpl. by apply sequential_metrics_nonempty.
    + done.
  - intros Hn He. eexists. split.
    + f_equal. by apply parallel_metrics_returns.
    + simpl. by rewrite Hlen.
  - intros H. simpl. by apply sequential_metrics_raise.
  - intros H. f_equal. by apply parallel_metrics_raise.
Qed.

Lemma C8_witness :
  (process_sequential 0 (SequentialDishwasher_init cycling_choice 0 0).1 1).2 =
    raise ZeroDivisionError ∧
  process_parallel 0 (ParallelDishwasher_init cycling_choice 0 0).1
    (round_robin 20) 1 = Some (raise ZeroDivisionError) ∧
  (∃ r, (process_sequential (-1)
           (SequentialDishwasher_init cycling_choice (-1) 0).1 1).2 = inr r ∧
        dict_get "dishes_processed" r = Some (VInt (-1))) ∧
  (∃ r, process_parallel (-1)
          (ParallelDishwasher_init cycling_choice (-1) 0).1
          (round_robin 20) 1 = Some (inr r) ∧
        dict_get "dishes_processed" r = Some (VInt (Z.max 0 (-1)))).
Proof.
  assert (coord (final (ParallelDishwasher_init cycling_choice 0 0).1
                   (round_robin 20)) = CDone 0) as H0
    by (vm_compute; reflexivity).
  assert (coord (final (ParallelDishwasher_init cycling_choice (-1) 0).1
                   (round_robin 20)) = CDone 0) as H1
    by (vm_compute; reflexivity).
  assert (¬ (1 == 0)%Q) as Hq by (intros H; vm_compute in H; discriminate H).
  pose proof (proj2 (proj2 (proj2
    (C8_same_statuses_and_count cycling_choice 0 0 (round_robin 20) 1 1)))
    0 H0) as (_ & _ & _ & _ & _ & Hs0 & Hp0).
  pose proof (proj2 (proj2 (proj2
    (C8_same_statuses_and_count cycling_choice (-1) 0 (round_robin 20) 1 1)))
    0 H1) as (_ & _ & _ & Hs1 & Hp1 & _ & _).
  split; [exact (Hs0 (or_introl eq_refl))|].
  split; [exact (Hp0 (or_introl eq_refl))|].
  split; [apply Hs1; [discriminate|exact Hq] | apply Hp1; [discriminate|exact Hq]].
Defined.

(** C9: the counter of unfinished tasks of a queue is never negative; it is
    zero exactly when every dish put into the queue has been got and
    acknowledged; and once [queue_4.join()] has returned all four counters
    are zero. *)
Theorem C9_pending_count ds sched k :
  (0 ≤ unfinished_tasks (queues (final ds sched) k))%Z ∧
  (unfinished_tasks (queues (final ds sched) k) = 0%Z ↔
   dequeued k (history ds sched) = enqueued k (history ds sched) ∧
   acknowledged k (history ds sched) = enqueued k (history ds sched)) ∧
  (drained (coord (final ds sched)) Store = true →
   ∀ k', unfinished_tasks (queues (final ds sched) k') = 0%Z).
Proof.
  pose proof (inv_run ds sched) as Hinv. rewrite run_final_history in Hinv.
  pose proof (inv_flow _ _ Hinv) as Hf.
  pose proof (flow_count _ _ Hf k) as Hc.
  pose proof (flow_queue _ _ Hf k) as Hq.
  pose proof (flow_worker _ _ Hf k) as Hw.
  pose proof (flow_ack _ _ Hf k) as Ha. simpl in *.
  assert (length (acknowledged k (history ds sched)) ≤
          length (enqueued k (history ds sched))) as Hle.
  { rewrite Hq, Hw, Ha, !length_app. lia. }
  split; [lia|]. split; [split|].
  - intros H0. by pose proof (flow_drained _ _ _ k Hf H0) as (_&_&_&?&_&?).
  - intros [_ He]. rewrite Hc, He. lia.
  - intros Hd k'. apply (ctl_drained _ _ (inv_ctl _ _ Hinv)).
    by apply drained_all.
Qed.

Lemma C9_witness :
  unfinished_tasks (queues (final demo_dishes (round_robin 40)) PreRinse) = 0%Z ∧
  unfinished_tasks (queues (final demo_dishes (round_robin 40)) Store) = 0%Z.
Proof.
  pose proof (proj2 (proj2
    (C9_pending_count demo_dishes (round_robin 40) PreRinse))) as H.
  split; apply H; vm_compute; reflexivity.
Defined.

(** C10: dishes are completed in the order in which they were fed: the
    completed list is always an initial segment of the dishes in feeding
    order, and when the coordinator reads it the objects in it are the
    dishes of [self.dishes], in that order, each with status stored. *)
Theorem C10_completed_in_feeding_order ds sched :
  completed_dishes (final ds sched) `prefix_of` seq 0 (length ds) ∧
  ∀ n, coord (final ds sched) = CDone n →
       completed_dishes (final ds sched) = seq 0 (length ds) ∧
       completed_objects (final ds sched) = with_status "stored" <$> ds ∧
       dish_id <$> completed_objects (final ds sched) = dish_id <$> ds.
Proof.
  pose proof (inv_run ds sched) as Hinv. rewrite run_final_history in Hinv.
  pose proof (inv_flow _ _ Hinv) as Hf. split.
  - by eapply flow_completed_prefix.
  - intros n Hdone. pose proof (done_drained _ _ Hdone) as Hd.
    pose proof (inv_drained_all _ _ _ Hinv Hd) as [Hc _].
    pose proof (inv_drained_dishes _ _ _ Hinv Hd) as Hds.
    assert (completed_objects (final ds sched) = with_status "stored" <$> ds)
      as Hobj.
    { unfold completed_objects. rewrite Hc, Hds.
      rewrite <- (length_fmap (with_status "stored")).
      apply omap_lookup_seq. }
    split; [done|]. split; [done|].
    rewrite Hobj, <- list_fmap_compose. done.
Qed.

Lemma C10_witness :
  dish_id <$> completed_objects (final demo_dishes (round_robin 40)) =
  dish_id <$> demo_dishes.
Proof.
  apply (proj2 (C10_completed_in_feeding_order demo_dishes (round_robin 40)) 3).
  vm_compute. reflexivity.
Defined.

(** * Further properties *)

(** ** No worker dies *)

Lemma step_no_error ds s tr t evs s' k :
  Inv ds (s, tr) → step t s = Some (evs, s') → EvError k ∉ evs.
Proof.
  intros Hinv Hstep. pose proof (inv_flow _ _ Hinv) as Hf.
  destruct t as [|k0].
  - unfold step, coord_step in Hstep.
    repeat case_match; simplify_eq;
      rewrite ?elem_of_nil, ?list_elem_of_singleton; naive_solver.
  - assert (worker_step k0 s = Some (evs, s')) as Hw by (by destruct k0).
    clear Hstep. unfold worker_step in Hw.
    destruct (workers s k0) eqn:Hpc; try done.
    6: { pose proof (flow_task_pending _ _ _ _ _ Hf Hpc).
         unfold Queue_task_done in Hw.
         destruct (Z.ltb_spec (unfinished_tasks (queues s k0) - 1) 0);
           [lia|]. simplify_eq.
         rewrite list_elem_of_singleton. done. }
    all: repeat case_match; simplify_eq;
      rewrite ?elem_of_nil, ?list_elem_of_singleton; naive_solver.
Qed.

Lemma exec_no_error ds sched c k :
  Inv ds c → EvError k ∉ c.2 → EvError k ∉ (exec sched c).2.
Proof.
  revert c. induction sched as [|t sched IH]; intros [s tr] Hinv Hno; [done|].
  simpl. apply IH; [by apply inv_sched_step|].
  unfold sched_step. simpl in *.
  destruct (step t s) as [[evs s']|] eqn:Hstep; [|done]. simpl.
  rewrite elem_of_app. intros [?|Hin]; [done|].
  by eapply step_no_error.
Qed.

(** X1: [task_done] is never called more often than [put]: no worker dies
    of the ValueError that [task_done] raises then. *)
Theorem X1_no_worker_dies ds sched k :
  workers (final ds sched) k ≠ WError ∧ EvError k ∉ history ds sched.
Proof.
  split.
  - pose proof (inv_run ds sched) as Hinv. rewrite run_final_history in Hinv.
    apply (ctl_noerr _ _ (inv_ctl _ _ Hinv)).
  - apply (exec_no_error ds); [apply inv_init|]. simpl. apply not_elem_of_nil.
Qed.

(** ** Every dish is at one place *)

Lemma flow_locations ds s tr :
  FlowInv ds (s, tr) → locations s = seq 0 (fed (length ds) (coord s)).
Proof.
  intros Hf. pose proof (flow_fed _ _ Hf) as Hfed.
  pose proof (flow_completed _ _ Hf) as Hc.
  pose proof (flow_queue _ _ Hf) as Hq.
  pose proof (flow_worker _ _ Hf) as Hw. simpl in *.
  rewrite <- Hfed. unfold locations.
  rewrite (Hq PreRinse), (Hw PreRinse). unfold handed_on at 1. simpl.
  rewrite (Hq Wash), (Hw Wash). unfold handed_on at 1. simpl.
  rewrite (Hq Dry), (Hw Dry). unfold handed_on at 1. simpl.
  rewrite (Hq Store), (Hw Store). unfold handed_on at 1. simpl.
  rewrite Hc, <- !app_assoc. done.
Qed.

(** X2: at every point of a run, the dishes fed so far are, in feeding
    order, the completed list followed by what the four workers hold and what
    the four queues contain, from the last stage back to the first.  So every
    dish that was fed is at exactly one place: no dish is lost, none is in
    two queues or in the hands of two workers. *)
Theorem X2_every_dish_at_one_place ds sched :
  locations (final ds sched) =
    seq 0 (fed (length ds) (coord (final ds sched))) ∧
  NoDup (locations (final ds sched)) ∧
  fed (length ds) (coord (final ds sched)) ≤ length ds.
Proof.
  pose proof (inv_run ds sched) as Hinv. rewrite run_final_history in Hinv.
  pose proof (inv_flow _ _ Hinv) as Hf.
  pose proof (flow_locations _ _ _ Hf) as Hl.
  split; [done|]. split.
  - rewrite Hl. apply NoDup_seq.
  - apply (flow_fed_le _ _ Hf).
Qed.

(** ** Identity of the dishes *)

Lemma current_id x0 writes : dish_id (current x0 writes) = dish_id x0.
Proof. unfold current. by destruct (last writes). Qed.

Lemma current_type x0 writes : dish_type (current x0 writes) = dish_type x0.
Proof. unfold current. by destruct (last writes). Qed.

(** X3: at every point of a run, the store holds as many dishes as were
    generated, with the ids and the types they were created with: the workers
    change the status of a dish and nothing else. *)
Theorem X3_ids_and_types_kept ds sched :
  length (dishes (final ds sched)) = length ds ∧
  dish_id <$> dishes (final ds sched) = dish_id <$> ds ∧
  dish_type <$> dishes (final ds sched) = dish_type <$> ds.
Proof.
  pose proof (inv_run ds sched) as Hinv. rewrite run_final_history in Hinv.
  pose proof (flow_len _ _ (inv_flow _ _ Hinv)) as Hlen.
  pose proof (st_dishes _ _ (inv_status _ _ Hinv)) as Hds. simpl in *.
  split; [done|].
  split; apply list_eq; intros d; rewrite !list_lookup_fmap.
  all: destruct (ds !! d) as [x0|] eqn:Hx0; simpl.
  all: try (rewrite (Hds _ _ Hx0); simpl;
            by rewrite ?current_id, ?current_type).
  all: apply lookup_ge_None in Hx0;
    rewrite (proj2 (lookup_ge_None _ _)) by lia; done.
Qed.

(** ** Every stage takes the dishes in feeding order *)

Lemma flow_status_set_prefix ds s tr k :
  FlowInv ds (s, tr) → status_set k tr `prefix_of` dequeued k tr.
Proof.
  intros Hf. pose proof (flow_status _ _ Hf k) as Hs.
  pose proof (flow_worker _ _ Hf k) as Hw. simpl in *. rewrite Hs, Hw.
  apply prefix_app. destruct (workers s k); simpl; by eexists.
Qed.

Lemma flow_dequeued_prefix ds s tr k :
  FlowInv ds (s, tr) → dequeued k tr `prefix_of` seq 0 (length ds).
Proof.
  intros Hf. etrans; [|by eapply flow_enqueued_prefix].
  pose proof (flow_queue _ _ Hf k) as Hq. simpl in *. rewrite Hq.
  by apply prefix_app_r.
Qed.

(** X4: at every point of a run, the dishes a worker has got from its queue
    and the dishes whose status it has assigned are initial segments of the
    dishes in feeding order: every stage handles the dishes in the order in
    which they were fed, none twice; when the coordinator is done, every
    stage has got every dish and assigned its status. *)
Theorem X4_every_stage_in_feeding_order ds sched k :
  dequeued k (history ds sched) `prefix_of` seq 0 (length ds) ∧
  status_set k (history ds sched) `prefix_of` dequeued k (history ds sched) ∧
  ∀ n, coord (final ds sched) = CDone n →
       dequeued k (history ds sched) = seq 0 (length ds) ∧
       status_set k (history ds sched) = seq 0 (length ds).
Proof.
  pose proof (inv_run ds sched) as Hinv. rewrite run_final_history in Hinv.
  pose proof (inv_flow _ _ Hinv) as Hf.
  split; [by eapply flow_dequeued_prefix|].
  split; [by eapply flow_status_set_prefix|].
  intros n Hdone. pose proof (done_drained _ _ Hdone) as Hd.
  destruct (inv_drained_all _ _ _ Hinv Hd) as [_ Hall].
  destruct (Hall k) as (_ & _ & _ & He & Hs). split; [|done].
  pose proof (ctl_drained _ _ (inv_ctl _ _ Hinv) k (drained_all _ Hd k)) as H0.
  pose proof (flow_drained _ _ _ k Hf H0) as (_&_&_&Hdq&_). congruence.
Qed.

(** ** The status of a dish follows from where it is *)

Lemma inv_status_in_queue ds s tr k d :
  Inv ds (s, tr) → Forall (λ x, status x = "dirty") ds →
  d ∈ queue (queues s k) →
  status <$> dishes s !! d = Some (input_status k).
Proof.
  intros Hinv Hdirty Hin. pose proof (inv_flow _ _ Hinv) as Hf.
  pose proof (flow_queue_range _ _ _ _ _ Hf Hin) as Hr.
  assert (d < length ds) as Hd.
  { pose proof (flow_numbers _ _ _ k Hf). lia. }
  stage_counts Hf s tr.
  destruct (lookup_lt_is_Some_2 ds d Hd) as [x0 Hx0].
  eapply status_before_stage; [apply Hinv|done| |..].
  - by eapply (Forall_lookup_1 _ _ _ _ Hdirty).
  - intros j Hj. destruct k, j; simpl in *; lia.
  - intros j Hj. destruct k, j; simpl in *; lia.
Qed.

Lemma inv_status_completed ds s tr d :
  Inv ds (s, tr) → d ∈ completed_dishes s →
  status <$> dishes s !! d = Some "stored".
Proof.
  intros Hinv Hin. pose proof (inv_flow _ _ Hinv) as Hf.
  pose proof (flow_completed _ _ Hf) as Hc. simpl in Hc. rewrite Hc in Hin.
  pose proof (flow_handed_range _ _ _ Store d Hf Hin) as Hr.
  stage_counts Hf s tr.
  assert (d < length ds) as Hd by lia.
  destruct (lookup_lt_is_Some_2 ds d Hd) as [x0 Hx0].
  apply (status_after_stage ds s tr d x0 Store); [apply Hinv|done|..].
  - intros j Hj. destruct j; simpl in *; lia.
  - intros j Hj. destruct j; simpl in *; lia.
Qed.

Lemma inv_status_held ds s tr k d :
  Inv ds (s, tr) → Forall (λ x, status x = "dirty") ds →
  held (workers s k) = [d] →
  status <$> dishes s !! d =
  Some (if putting (workers s k) is [] then input_status k
        else target_status k).
Proof.
  intros Hinv Hdirty Hheld. pose proof (inv_flow _ _ Hinv) as Hf.
  pose proof (flow_held_next _ _ _ _ _ Hf Hheld) as Hd0.
  assert (length (held (workers s k)) = 1) as Hh1 by (by rewrite Hheld).
  assert (d < length ds) as Hd.
  { pose proof (flow_numbers _ _ _ k Hf). lia. }
  stage_counts Hf s tr.
  destruct (lookup_lt_is_Some_2 ds d Hd) as [x0 Hx0].
  destruct (putting (workers s k)) as [|? ?] eqn:Hp.
  - assert (length (putting (workers s k)) = 0) as Hp0 by (by rewrite Hp).
    eapply status_before_stage; [apply Hinv|done| |..].
    + by eapply (Forall_lookup_1 _ _ _ _ Hdirty).
    + intros j Hj. destruct k, j; simpl in *; lia.
    + intros j Hj. destruct k, j; simpl in *; lia.
  - assert (length (putting (workers s k)) = 1) as Hp1.
    { destruct (workers s k); simpl in *; by simplify_eq. }
    apply (status_after_stage ds s tr d x0 k); [apply Hinv|done|..].
    + intros j Hj. destruct k, j; simpl in *; lia.
    + intros j Hj. destruct k, j; simpl in *; lia.
Qed.

(** X5: with dishes that start dirty, the status of a dish follows from
    where it is, at every point of a run: a dish in the completed list is
    stored; a dish in the queue of a stage has the status the stage before
    gave it (dirty in queue_1); a dish in the hands of a worker has that
    status until the worker has assigned its own. *)
Theorem X5_status_by_location ds sched :
  Forall (λ x, status x = "dirty") ds →
  (∀ d, d ∈ completed_dishes (final ds sched) →
        status <$> dishes (final ds sched) !! d = Some "stored") ∧
  (∀ k d, d ∈ queue (queues (final ds sched) k) →
          status <$> dishes (final ds sched) !! d = Some (input_status k)) ∧
  (∀ k d, workers (final ds sched) k = WSleep d ∨
          workers (final ds sched) k = WStatus d →
          status <$> dishes (final ds sched) !! d = Some (input_status k)) ∧
  (∀ k d, workers (final ds sched) k = WPut d →
          status <$> dishes (final ds sched) !! d = Some (target_status k)).
Proof.
  intros Hdirty. pose proof (inv_run ds sched) as Hinv.
  rewrite run_final_history in Hinv. repeat split.
  - intros d. apply (inv_status_completed _ _ _ _ Hinv).
  - intros k d. apply (inv_status_in_queue _ _ _ _ _ Hinv Hdirty).
  - intros k d Hpc.
    pose proof (inv_status_held _ _ _ k d Hinv Hdirty) as H.
    destruct Hpc as [Hpc|Hpc]; rewrite Hpc in H; by apply H.
  - intros k d Hpc.
    pose proof (inv_status_held _ _ _ k d Hinv Hdirty) as H.
    rewrite Hpc in H; by apply H.
Qed.

Lemma X5_witness :
  status <$> dishes (final demo_dishes (round_robin 14)) !! 0 =
    Some (target_status Dry) ∧
  status <$> dishes (final demo_dishes (round_robin 14)) !! 2 =
    Some (input_status PreRinse).
Proof.
  assert (Forall (λ x, status x = "dirty") demo_dishes) as H
    by (repeat constructor).
  split.
  - apply (proj2 (proj2 (proj2
      (X5_status_by_location demo_dishes (round_robin 14) H))) Dry 0).
    vm_compute. reflexivity.
  - apply (proj1 (proj2
      (X5_status_by_location demo_dishes (round_robin 14) H)) PreRinse 2).
    vm_compute. apply list_elem_of_here.
Defined.

(** ** Runs and their continuations *)

Lemma exec_app sched1 sched2 c :
  exec (sched1 ++ sched2) c = exec sched2 (exec sched1 c).
Proof. unfold exec. by rewrite fold_left_app. Qed.

Lemma run_app ds sched1 sched2 :
  run ds (sched1 ++ sched2) = exec sched2 (run ds sched1).
Proof. apply exec_app. Qed.

(** X6: the pipeline cannot get stuck: from every point that a run can
    reach, every fair continuation with enough rounds brings
    [process_parallel] to the reading of [len(self.completed_dishes)], which
    is the number of dishes. *)
Theorem X6_no_deadlock ds sched0 sched :
  fair (enough_rounds ds) sched →
  coord (final ds (sched0 ++ sched)) = CDone (length ds).
Proof.
  intros Hfair.
  assert (finished (run ds (sched0 ++ sched))) as [n Hn].
  { rewrite run_app. apply (fair_finishes ds (enough_rounds ds)); [|
      |done].
    - apply inv_run.
    - apply (potential_exec ds sched0 (init ds, [])), inv_init. }
  fold (final ds (sched0 ++ sched)) in Hn.
  by rewrite Hn, (done_count _ _ _ Hn).
Qed.

Lemma X6_witness :
  coord (final demo_dishes
           ([Worker Store; Worker Dry; Coordinator; Coordinator] ++
            round_robin (enough_rounds demo_dishes))) = CDone 3.
Proof.
  apply (X6_no_deadlock demo_dishes
           [Worker Store; Worker Dry; Coordinator; Coordinator]).
  apply round_robin_fair.
Defined.

Lemma inv_done_state ds s tr :
  Inv ds (s, tr) → drained (coord s) Store = true →
  dishes s = with_status "stored" <$> ds ∧
  completed_dishes s = seq 0 (length ds) ∧
  ∀ k, queues s k = Queue_new ∧ held (workers s k) = [] ∧
       acking (workers s k) = [].
Proof.
  intros Hinv Hd. split; [by eapply inv_drained_dishes|].
  pose proof (inv_drained_all _ _ _ Hinv Hd) as [Hc Hall]. split; [done|].
  intros k. destruct (Hall k) as (Hq & Hh & Ha & _).
  pose proof (ctl_drained _ _ (inv_ctl _ _ Hinv) k
                (drained_all _ Hd k)) as H0. simpl in *.
  repeat split; try done. unfold Queue_new.
  destruct (queues s k); simpl in *; by subst.
Qed.

(** X7: what [process_parallel] leaves behind and returns does not depend on
    how the threads were interleaved: two runs that both came to the end
    have the same dish objects, the same completed list, the same (empty)
    queues, and the same metrics for the same elapsed time. *)
Theorem X7_outcome_independent_of_schedule ds sched1 sched2 n1 n2 :
  coord (final ds sched1) = CDone n1 →
  coord (final ds sched2) = CDone n2 →
  n1 = n2 ∧
  dishes (final ds sched1) = dishes (final ds sched2) ∧
  completed_dishes (final ds sched1) = completed_dishes (final ds sched2) ∧
  (∀ k, queues (final ds sched1) k = queues (final ds sched2) k) ∧
  stop_event (final ds sched1) = stop_event (final ds sched2) ∧
  ∀ num_dishes elapsed_time,
    process_parallel num_dishes ds sched1 elapsed_time =
    process_parallel num_dishes ds sched2 elapsed_time.
Proof.
  intros H1 H2.
  pose proof (inv_run ds sched1) as Hi1. rewrite run_final_history in Hi1.
  pose proof (inv_run ds sched2) as Hi2. rewrite run_final_history in Hi2.
  destruct (inv_done_state _ _ _ Hi1 (done_drained _ _ H1))
    as (Hd1 & Hc1 & Hq1).
  destruct (inv_done_state _ _ _ Hi2 (done_drained _ _ H2))
    as (Hd2 & Hc2 & Hq2).
  pose proof (ctl_stop _ _ (inv_ctl _ _ Hi1)) as Hs1.
  pose proof (ctl_stop _ _ (inv_ctl _ _ Hi2)) as Hs2. simpl in *.
  repeat split.
  - by rewrite (done_count _ _ _ H1), (done_count _ _ _ H2).
  - by rewrite Hd1, Hd2.
  - by rewrite Hc1, Hc2.
  - intros k. by rewrite (proj1 (Hq1 k)), (proj1 (Hq2 k)).
  - by rewrite Hs1, Hs2, H1, H2.
  - intros num_dishes e. by rewrite (process_parallel_done _ _ _ _ _ H1),
      (process_parallel_done _ _ _ _ _ H2).
Qed.

Lemma X7_witness :
  dishes (final demo_dishes (round_robin 40)) =
    dishes (final demo_dishes (reverse (round_robin 50))) ∧
  process_parallel 3 demo_dishes (round_robin 40) 2 =
    process_parallel 3 demo_dishes (reverse (round_robin 50)) 2.
Proof.
  assert (coord (final demo_dishes (round_robin 40)) = CDone 3) as H1
    by (vm_compute; reflexivity).
  assert (coord (final demo_dishes (reverse (round_robin 50))) = CDone 3)
    as H2 by (vm_compute; reflexivity).
  split.
  - exact (proj1 (proj2 (X7_outcome_independent_of_schedule
                           demo_dishes _ _ 3 3 H1 H2))).
  - exact (proj2 (proj2 (proj2 (proj2 (proj2
             (X7_outcome_independent_of_schedule
                demo_dishes _ _ 3 3 H1 H2))))) 3%Z 2%Q).
Defined.

(** X8: the stop flag is never set early: whenever it is set, every dish is
    in the completed list, in feeding order, and has the status stored; every
    queue is empty with no unfinished task; and no worker holds a dish. *)
Theorem X8_stop_only_after_all_stored ds sched :
  stop_event (final ds sched) = true →
  completed_dishes (final ds sched) = seq 0 (length ds) ∧
  dishes (final ds sched) = with_status "stored" <$> ds ∧
  ∀ k, queues (final ds sched) k = Queue_new ∧
       held (workers (final ds sched) k) = [] ∧
       acking (workers (final ds sched) k) = [].
Proof.
  intros Hstop. pose proof (inv_run ds sched) as Hinv.
  rewrite run_final_history in Hinv.
  pose proof (ctl_stop _ _ (inv_ctl _ _ Hinv)) as Hs. simpl in Hs.
  rewrite Hstop in Hs.
  assert (drained (coord (final ds sched)) Store = true) as Hd.
  { by destruct (coord (final ds sched)). }
  destruct (inv_done_state _ _ _ Hinv Hd) as (? & ? & ?). done.
Qed.

Lemma X8_witness :
  completed_dishes (final demo_dishes (round_robin 40)) =
    seq 0 (length demo_dishes) ∧
  dishes (final demo_dishes (round_robin 40)) =
    with_status "stored" <$> demo_dishes.
Proof.
  assert (stop_event (final demo_dishes (round_robin 40)) = true) as H
    by (vm_compute; reflexivity).
  split.
  - exact (proj1 (X8_stop_only_after_all_stored demo_dishes _ H)).
  - exact (proj1 (proj2 (X8_stop_only_after_all_stored demo_dishes _ H))).
Defined.

(** ** After the stop flag *)

Lemma inv_winding_down ds s tr :
  Inv ds (s, tr) → stop_event s = true → winding_down s.
Proof.
  intros Hinv Hstop.
  pose proof (ctl_stop _ _ (inv_ctl _ _ Hinv)) as Hs. simpl in Hs.
  rewrite Hstop in Hs.
  assert (drained (coord s) Store = true) as Hd by (by destruct (coord s)).
  destruct (inv_done_state _ _ _ Hinv Hd) as (_ & _ & Hall).
  split; [done|]. split; [done|]. intros k.
  destruct (Hall k) as (Hq & Hh & Ha). split; [by rewrite Hq|].
  pose proof (ctl_noerr _ _ (inv_ctl _ _ Hinv) k) as Hne.
  pose proof (flow_started _ _ (inv_flow _ _ Hinv) k) as Hst. simpl in *.
  assert (started (coord s) k = true) as Hstarted
    by (by destruct (coord s)).
  destruct (workers s k); simpl in *; try done; eauto.
  destruct Hst as [Hst _]. specialize (Hst eq_refl). congruence.
Qed.

Lemma winding_down_step s tr t :
  winding_down s →
  winding_down (sched_step (s, tr) t).1 ∧
  ∀ k, exit_rank (workers (sched_step (s, tr) t).1 k) ≤
         exit_rank (workers s k) ∧
       (t = Worker k →
        exit_rank (workers (sched_step (s, tr) t).1 k) ≤
          pred (exit_rank (workers s k))).
Proof.
  intros (Hc & Hstop & Hall). unfold sched_step. simpl.
  destruct t as [|k0].
  - unfold step, coord_step.
    destruct (coord s) as [k'|idx|k'| |k'| |n] eqn:E; try done; simpl.
    + split; [|by intros k; split; [lia|]].
      split; [by destruct k'|done].
    + split; [|by intros k; split; [lia|]].
      split; [by rewrite E|done].
  - assert (step (Worker k0) s = worker_step k0 s) as -> by (by destruct k0).
    unfold worker_step. destruct (Hall k0) as (Hq & Hpc).
    unfold Queue_get. rewrite Hq, Hstop.
    destruct Hpc as [Hpc|[Hpc|Hpc]]; rewrite Hpc; simpl.
    + split.
      * split; [done|]. split; [done|]. intros k. simpl.
        split; [apply Hall|].
        destruct (decide (k = k0)) as [->|Hne].
        -- rewrite fn_lookup_insert. eauto.
        -- rewrite fn_lookup_insert_ne by done. apply Hall.
      * intros k. destruct (decide (k = k0)) as [->|Hne].
        -- rewrite fn_lookup_insert, Hpc. simpl. split; [lia|done].
        -- rewrite fn_lookup_insert_ne by done. split; [lia|congruence].
    + split.
      * split; [done|]. split; [done|]. intros k. simpl.
        split; [apply Hall|].
        destruct (decide (k = k0)) as [->|Hne].
        -- rewrite fn_lookup_insert. eauto.
        -- rewrite fn_lookup_insert_ne by done. apply Hall.
      * intros k. destruct (decide (k = k0)) as [->|Hne].
        -- rewrite fn_lookup_insert, Hpc. simpl. split; [lia|done].
        -- rewrite fn_lookup_insert_ne by done. split; [lia|congruence].
    + split; [done|]. intros k. split; [lia|]. intros [= ->].
      rewrite Hpc. simpl. lia.
Qed.

Lemma winding_down_exec seg c :
  winding_down c.1 →
  winding_down (exec seg c).1 ∧
  ∀ k, exit_rank (workers (exec seg c).1 k) ≤ exit_rank (workers c.1 k) ∧
       (Worker k ∈ seg →
        exit_rank (workers (exec seg c).1 k) ≤
          pred (exit_rank (workers c.1 k))).
Proof.
  revert c. induction seg as [|t seg IH]; intros [s tr] Hw.
  - split; [done|]. intros k. split; [done|]. by intros ?%elem_of_nil.
  - simpl in *. destruct (winding_down_step s tr t Hw) as [Hw' Hr].
    destruct (sched_step (s, tr) t) as [s' tr'] eqn:E. simpl in *.
    destruct (IH (s', tr') Hw') as [Hw'' Hr']. split; [done|].
    intros k. destruct (Hr k) as [Hle Hlt]. destruct (Hr' k) as [Hle' Hlt'].
    simpl in *. split; [lia|].
    intros [Heq|Hin]%elem_of_cons.
    + specialize (Hlt (eq_sym Heq)). lia.
    + specialize (Hlt' Hin). lia.
Qed.

(** X9: once the stop flag is set, every worker has left its loop after two
    more fair rounds, however often it had polled before: the join of the
    threads does not wait in vain for a worker that is scheduled. *)
Theorem X9_workers_exit_after_stop ds sched0 sched k :
  stop_event (final ds sched0) = true → fair 2 sched →
  workers (final ds (sched0 ++ sched)) k = WExit.
Proof.
  intros Hstop (seg1 & rest & -> & Hall1 & seg2 & rest' & -> & Hall2 & _).
  pose proof (inv_run ds sched0) as Hinv.
  assert (winding_down (run ds sched0).1) as Hw0.
  { rewrite run_final_history in *. by eapply inv_winding_down. }
  unfold final. rewrite run_app, !exec_app.
  destruct (winding_down_exec seg1 _ Hw0) as [Hw1 Hr1].
  destruct (winding_down_exec seg2 _ Hw1) as [Hw2 Hr2].
  destruct (winding_down_exec rest' _ Hw2) as [Hw3 Hr3].
  destruct (Hr1 k) as [_ H1]. destruct (Hr2 k) as [_ H2].
  destruct (Hr3 k) as [H3 _].
  specialize (H1 (Hall1 _)). specialize (H2 (Hall2 _)).
  destruct Hw0 as (_ & _ & Hk0). destruct (Hk0 k) as [_ Hpc0].
  assert (exit_rank (workers (run ds sched0).1 k) ≤ 2) as Hle.
  { destruct Hpc0 as [->|[->| ->]]; simpl; lia. }
  destruct Hw3 as (_ & _ & Hk). destruct (Hk k) as [_ Hpc].
  destruct Hpc as [Hpc|[Hpc|Hpc]]; [| |done];
    rewrite Hpc in H3; simpl in H3; lia.
Qed.

Lemma X9_witness :
  workers (final demo_dishes (round_robin 33 ++ round_robin 2)) Wash = WExit.
Proof.
  apply (X9_workers_exit_after_stop demo_dishes (round_robin 33)
           (round_robin 2) Wash).
  - vm_compute. reflexivity.
  - apply round_robin_fair.
Defined.

(** ** What is done stays done *)

Lemma exec_history_prefix sched c : c.2 `prefix_of` (exec sched c).2.
Proof.
  revert c. induction sched as [|t sched IH]; intros [s tr]; [done|].
  simpl. etrans; [|apply IH]. unfold sched_step. simpl.
  destruct (step t s) as [[evs s']|]; [|done]. by apply prefix_app_r.
Qed.

Lemma omap_prefix {A B} (f : A → option B) (l1 l2 : list A) :
  l1 `prefix_of` l2 → omap f l1 `prefix_of` omap f l2.
Proof. intros [l ->]. rewrite omap_app. by apply prefix_app_r. Qed.

Lemma stages_passed_full d tr :
  d < length (status_set Store tr) →
  length (status_set Store tr) ≤ length (status_set Dry tr) →
  length (status_set Dry tr) ≤ length (status_set Wash tr) →
  length (status_set Wash tr) ≤ length (status_set PreRinse tr) →
  stages_passed d tr = all_stages.
Proof.
  intros. unfold stages_passed, all_stages.
  rewrite !filter_cons, filter_nil. by rewrite !decide_True by lia.
Qed.

(** X10: nothing is taken back.  When a run goes on, its history, the
    completed list and the values written to the status of each dish only
    grow at the end; and a dish that is in the completed list is not
    written again. *)
Theorem X10_done_stays_done ds sched sched' :
  history ds sched `prefix_of` history ds (sched ++ sched') ∧
  completed_dishes (final ds sched) `prefix_of`
    completed_dishes (final ds (sched ++ sched')) ∧
  (∀ d, status_writes d (history ds sched) `prefix_of`
        status_writes d (history ds (sched ++ sched'))) ∧
  (∀ d, d ∈ completed_dishes (final ds sched) →
        dishes (final ds (sched ++ sched')) !! d =
        dishes (final ds sched) !! d).
Proof.
  assert (history ds sched `prefix_of` history ds (sched ++ sched')) as Hpre.
  { unfold history. rewrite run_app. apply exec_history_prefix. }
  pose proof (inv_run ds sched) as Hinv.
  pose proof (inv_run ds (sched ++ sched')) as Hinv'.
  rewrite run_final_history in Hinv, Hinv'.
  pose proof (inv_flow _ _ Hinv) as Hf. pose proof (inv_flow _ _ Hinv') as Hf'.
  split; [done|]. split; [|split].
  - pose proof (flow_completed _ _ Hf) as Hc.
    pose proof (flow_completed _ _ Hf') as Hc'. simpl in *.
    rewrite Hc, Hc'. by apply omap_prefix.
  - intros d. by apply omap_prefix.
  - intros d Hin. pose proof (flow_completed _ _ Hf) as Hc. simpl in Hc.
    rewrite Hc in Hin.
    pose proof (flow_handed_range _ _ _ Store d Hf Hin) as Hd.
    pose proof (flow_numbers _ _ _ Store Hf) as (_ & _ & Hs & _).
    pose proof (flow_numbers _ _ _ PreRinse Hf) as (_ & _ & _ & Hle).
    pose proof (flow_status_mono _ _ _ PreRinse Wash Hf eq_refl).
    pose proof (flow_status_mono _ _ _ Wash Dry Hf eq_refl).
    pose proof (flow_status_mono _ _ _ Dry Store Hf eq_refl).
    pose proof (flow_status_mono _ _ _ PreRinse Wash Hf' eq_refl).
    pose proof (flow_status_mono _ _ _ Wash Dry Hf' eq_refl).
    pose proof (flow_status_mono _ _ _ Dry Store Hf' eq_refl).
    assert (length (status_set Store (history ds sched)) ≤
            length (status_set Store (history ds (sched ++ sched')))) as Hgrow.
    { apply prefix_length. by apply omap_prefix. }
    assert (length (status_set PreRinse (history ds sched)) ≤ length ds).
    { pose proof (flow_status_set_prefix _ _ _ PreRinse Hf) as Hp.
      pose proof (flow_dequeued_prefix _ _ _ PreRinse Hf) as Hp'.
      apply prefix_length in Hp, Hp'. rewrite length_seq in Hp'. lia. }
    assert (d < length ds) as Hlt by lia.
    destruct (lookup_lt_is_Some_2 ds d Hlt) as [x0 Hx0].
    pose proof (st_dishes _ _ (inv_status _ _ Hinv) _ _ Hx0) as Hd1.
    pose proof (st_dishes _ _ (inv_status _ _ Hinv') _ _ Hx0) as Hd2.
    pose proof (st_writes _ _ (inv_status _ _ Hinv) d) as Hw1.
    pose proof (st_writes _ _ (inv_status _ _ Hinv') d) as Hw2. simpl in *.
    unfold handed_on in *. simpl in *.
    rewrite Hd1, Hd2, Hw1, Hw2, !stages_passed_full; first done; lia.
Qed.

(** ** The sequential loop and its sleeps *)

Lemma timed_stages {Rng} (random_uniform : Rng → Q → Q → Q * Rng) :
  (∀ rng, (1 # 10 <= (random_uniform rng (1 # 10) (3 # 10)).1 <= 3 # 10)%Q) →
  ∀ dish ds rng slept,
  ∃ rng' slept',
    timed_stage random_uniform "stored" dish
      (timed_stage random_uniform "dried" dish
         (timed_stage random_uniform "washed" dish
            (timed_stage random_uniform "pre-rinsed" dish
               (ds, rng, slept)))) =
    (store dish (dry dish (wash dish (pre_rinse dish ds))), rng', slept') ∧
    (slept + (4 # 10) <= slept' <= slept + (12 # 10))%Q.
Proof.
  intros Hu dish ds rng slept. unfold timed_stage, _simulate_processing_time.
  pose proof (Hu rng) as H1.
  destruct (random_uniform rng (1 # 10) (3 # 10)) as [t1 r1].
  pose proof (Hu r1) as H2.
  destruct (random_uniform r1 (1 # 10) (3 # 10)) as [t2 r2].
  pose proof (Hu r2) as H3.
  destruct (random_uniform r2 (1 # 10) (3 # 10)) as [t3 r3].
  pose proof (Hu r3) as H4.
  destruct (random_uniform r3 (1 # 10) (3 # 10)) as [t4 r4].
  cbn [fst] in H1, H2, H3, H4. eexists _, _. split; [reflexivity|].
  split; lra.
Qed.

Lemma timed_fold {Rng} (random_uniform : Rng → Q → Q → Q * Rng) :
  (∀ rng, (1 # 10 <= (random_uniform rng (1 # 10) (3 # 10)).1 <= 3 # 10)%Q) →
  ∀ l ds rng slept,
  let r := foldl (λ st dish,
                    timed_stage random_uniform "stored" dish
                      (timed_stage random_uniform "dried" dish
                         (timed_stage random_uniform "washed" dish
                            (timed_stage random_uniform "pre-rinsed" dish
                               st))))
             (ds, rng, slept) l in
  r.1.1 = foldl (λ ds dish,
                   store dish (dry dish (wash dish (pre_rinse dish ds))))
            ds l ∧
  (slept + (4 # 10) * inject_Z (Z.of_nat (length l)) <= r.2 <=
   slept + (12 # 10) * inject_Z (Z.of_nat (length l)))%Q.
Proof.
  intros Hu l. induction l as [|i l IH]; intros ds rng slept.
  - cbn [foldl length fst snd]. split; [done|].
    change (inject_Z (Z.of_nat 0)) with 0%Q. split; lra.
  - cbn [foldl].
    destruct (timed_stages random_uniform Hu i ds rng slept)
      as (rng' & slept' & -> & Hb).
    destruct (IH (store i (dry i (wash i (pre_rinse i ds)))) rng' slept')
      as [Hd Hs].
    split; [exact Hd|].
    assert (inject_Z (Z.of_nat (length (i :: l))) ==
            inject_Z (Z.of_nat (length l)) + 1)%Q as Hlen.
    { cbn [length]. by rewrite Nat2Z.inj_succ, <- Z.add_1_r, inject_Z_plus. }
    rewrite Hlen. split; lra.
Qed.

(** X11: the loop of [process_sequential] with its sleeps leaves the dishes
    as the loop without them does, and, [random.uniform(0.1, 0.3)] staying
    within its interval, sleeps between 0.4 and 1.2 seconds per dish. *)
Theorem X11_sequential_loop_sleeps {Rng}
    (random_uniform : Rng → Q → Q → Q * Rng) ds rng :
  (∀ rng, (1 # 10 <= (random_uniform rng (1 # 10) (3 # 10)).1 <= 3 # 10)%Q) →
  (timed_loop random_uniform ds rng).1.1 = sequential_loop ds ∧
  ((4 # 10) * inject_Z (Z.of_nat (length ds)) <=
     (timed_loop random_uniform ds rng).2 <=
   (12 # 10) * inject_Z (Z.of_nat (length ds)))%Q.
Proof.
  intros Hu.
  destruct (timed_fold random_uniform Hu (seq 0 (length ds)) ds rng 0%Q)
    as [Hd Hs].
  rewrite length_seq in Hs. split; [exact Hd|].
  unfold timed_loop. split; lra.
Qed.

Lemma alternating_uniform_bounds rng :
  (1 # 10 <= (alternating_uniform rng (1 # 10) (3 # 10)).1 <= 3 # 10)%Q.
Proof. destruct rng; simpl; split; lra. Qed.

Lemma X11_witness :
  (timed_loop alternating_uniform demo_dishes true).1.1 =
    sequential_loop demo_dishes ∧
  ((4 # 10) * inject_Z (Z.of_nat (length demo_dishes)) <=
     (timed_loop alternating_uniform demo_dishes true).2 <=
   (12 # 10) * inject_Z (Z.of_nat (length demo_dishes)))%Q.
Proof.
  apply (X11_sequential_loop_sleeps alternating_uniform demo_dishes true).
  apply alternating_uniform_bounds.
Defined.

Lemma metrics_positive n e :
  0 < n → ((4 # 10) * inject_Z (Z.of_nat n) <= e)%Q →
  (0 < inject_Z (Z.of_nat n))%Q ∧ (0 < e)%Q.
Proof.
  intros Hn He.
  assert (0 < inject_Z (Z.of_nat n))%Q as Hpos.
  { change 0%Q with (inject_Z 0). rewrite <- Zlt_Qlt. lia. }
  split; [done|lra].
Qed.

(** X12: [process_sequential] on at least one dish, timed by a clock that
    shows at least the time slept, does not raise: it returns its metrics,
    with a throughput of at most 2.5 dishes per second and an average of at
    least 0.4 seconds per dish.  The dishes [ds] are those generated for the
    count [num_dishes]. *)
Theorem X12_sequential_metrics_bounds {Rng}
    (random_uniform : Rng → Q → Q → Q * Rng)
    num_dishes ds rng elapsed_time :
  (∀ rng, (1 # 10 <= (random_uniform rng (1 # 10) (3 # 10)).1 <= 3 # 10)%Q) →
  length ds = Z.to_nat num_dishes →
  ds ≠ [] →
  ((timed_loop random_uniform ds rng).2 <= elapsed_time)%Q →
  ∃ throughput avg_time_per_dish,
    (process_sequential num_dishes ds elapsed_time).2 =
      inr [("execution_time", VFloat elapsed_time);
           ("throughput", VFloat throughput);
           ("avg_time_per_dish", VFloat avg_time_per_dish);
           ("dishes_processed", VInt (Z.of_nat (length ds)))] ∧
    (throughput <= 5 # 2)%Q ∧ (4 # 10 <= avg_time_per_dish)%Q.
Proof.
  intros Hu Hlen Hne He.
  destruct (timed_fold random_uniform Hu (seq 0 (length ds)) ds rng 0%Q)
    as [_ [Hs _]].
  rewrite length_seq in Hs. fold (timed_loop random_uniform ds rng) in Hs.
  assert (0 < length ds) as Hn by (destruct ds; [done|simpl; lia]).
  assert (num_dishes = Z.of_nat (length ds)) as -> by lia.
  destruct (metrics_positive (length ds) elapsed_time Hn) as [Hpn Hpe];
    [lra|].
  eexists _, _. split; [|split].
  - simpl. apply sequential_metrics_nonempty; [lia|]. intros H0. lra.
  - apply Qle_shift_div_r; [done|]. lra.
  - apply Qle_shift_div_l; [done|]. lra.
Qed.

Lemma X12_witness :
  ∃ throughput avg_time_per_dish,
    (process_sequential 3 demo_dishes 3).2 =
      inr [("execution_time", VFloat 3);
           ("throughput", VFloat throughput);
           ("avg_time_per_dish", VFloat avg_time_per_dish);
           ("dishes_processed", VInt (Z.of_nat (length demo_dishes)))] ∧
    (throughput <= 5 # 2)%Q ∧ (4 # 10 <= avg_time_per_dish)%Q.
Proof.
  apply (X12_sequential_metrics_bounds alternating_uniform 3 demo_dishes
           true 3).
  - apply alternating_uniform_bounds.
  - reflexivity.
  - discriminate.
  - vm_compute. discriminate.
Defined.

(** ** The generated dishes *)

Lemma generate_fold {Rng} (random_choice : Rng → list string → string * Rng)
    (T : string → Prop) :
  (∀ rng, T (random_choice rng dish_types).1) →
  ∀ m acc rng,
  dish_id <$> acc = seq 1 (length acc) →
  Forall (λ x, status x = "dirty" ∧ T (dish_type x)) acc →
  let ds := (foldl (λ '(dishes, rng) i,
                      let '(dish_type, rng') :=
                        random_choice rng dish_types in
                      (dishes ++ [Dish_init (i + 1) dish_type], rng'))
               (acc, rng) (seq (length acc) m)).1 in
  dish_id <$> ds = seq 1 (length acc + m) ∧
  Forall (λ x, status x = "dirty" ∧ T (dish_type x)) ds.
Proof.
  intros HT m. induction m as [|m IH]; intros acc rng Hid Hall.
  - simpl. by rewrite Nat.add_0_r.
  - change (seq (length acc) (S m))
      with (length acc :: seq (S (length acc)) m).
    cbn [foldl]. pose proof (HT rng) as Ht.
    destruct (random_choice rng dish_types) as [t rng'].
    specialize (IH (acc ++ [Dish_init (length acc + 1) t]) rng').
    rewrite length_app in IH. cbn [length] in IH.
    rewrite !Nat.add_1_r in IH. rewrite Nat.add_1_r, <- Nat.add_succ_comm.
    cbn [fst] in Ht. apply IH.
    + rewrite fmap_app, Hid, seq_S. simpl. done.
    + apply Forall_app. split; [done|]. by repeat constructor.
Qed.

(** X13: [_generate_dishes] numbers the dishes 1, 2, ... in order, creates
    every dish dirty, and gives it a type out of plate, bowl and utensil, as
    long as [random.choice] returns an element of its argument. *)
Theorem X13_generated_dishes {Rng}
    (random_choice : Rng → list string → string * Rng) num_dishes rng :
  (∀ rng, (random_choice rng dish_types).1 ∈ dish_types) →
  dish_id <$> (parallel_generate_dishes random_choice num_dishes rng).1 =
    seq 1 num_dishes ∧
  Forall (λ x, status x = "dirty")
    (parallel_generate_dishes random_choice num_dishes rng).1 ∧
  Forall (λ x, dish_type x ∈ dish_types)
    (parallel_generate_dishes random_choice num_dishes rng).1.
Proof.
  intros Hc.
  destruct (generate_fold random_choice (λ t, t ∈ dish_types) Hc
              num_dishes [] rng eq_refl (Forall_nil_2 _)) as [Hid Hall].
  split; [exact Hid|].
  split; eapply Forall_impl; try exact Hall; by intros x [? ?].
Qed.

Lemma cycling_choice_types rng :
  (cycling_choice rng dish_types).1 ∈ dish_types.
Proof.
  unfold cycling_choice, dish_types. cbn [fst length].
  pose proof (Nat.mod_upper_bound rng 3 ltac:(lia)) as Hlt.
  destruct (rng mod 3) as [|[|[|?]]]; [| | |lia]; simpl;
    repeat first [apply list_elem_of_here | apply list_elem_of_further].
Qed.

Lemma X13_witness :
  dish_id <$> (parallel_generate_dishes cycling_choice 5 0).1 = seq 1 5 ∧
  Forall (λ x, status x = "dirty")
    (parallel_generate_dishes cycling_choice 5 0).1 ∧
  Forall (λ x, dish_type x ∈ dish_types)
    (parallel_generate_dishes cycling_choice 5 0).1.
Proof.
  apply (X13_generated_dishes cycling_choice 5 0), cycling_choice_types.
Defined.

(** ** From the generator through the pipeline *)

Lemma enough_rounds_eq ds : enough_rounds ds = 42 * length ds + 30.
Proof.
  unfold enough_rounds, potential, sum_stages, stage_work, waiting.
  simpl. lia.
Qed.

Lemma done_completed_objects ds sched n :
  coord (final ds sched) = CDone n →
  completed_objects (final ds sched) = with_status "stored" <$> ds.
Proof.
  intros Hdone. pose proof (inv_run ds sched) as Hinv.
  rewrite run_final_history in Hinv.
  destruct (inv_done_state _ _ _ Hinv (done_drained _ _ Hdone))
    as (Hds & Hc & _).
  unfold completed_objects. rewrite Hc, Hds.
  rewrite <- (length_fmap (with_status "stored")). apply omap_lookup_seq.
Qed.

(** X14: a [ParallelDishwasher] for [num_dishes] dishes, run under a fair
    schedule of 42 rounds per dish and 30 more: [process_parallel] counts
    [num_dishes] completed dishes, and the completed list holds the dishes
    numbered 1, 2, ... in this order, each stored and of the type it was
    generated with. *)
Theorem X14_generated_dishes_through_pipeline {Rng}
    (random_choice : Rng → list string → string * Rng)
    num_dishes rng sched :
  fair (42 * num_dishes + 30) sched →
  let ds := (parallel_generate_dishes random_choice num_dishes rng).1 in
  coord (final ds sched) = CDone num_dishes ∧
  dish_id <$> completed_objects (final ds sched) = seq 1 num_dishes ∧
  dish_type <$> completed_objects (final ds sched) = dish_type <$> ds ∧
  Forall (λ x, status x = "stored") (completed_objects (final ds sched)).
Proof.
  intros Hfair ds.
  assert (length ds = num_dishes) as Hlen by apply generate_dishes_length.
  destruct (run_completes ds sched) as [n Hn].
  { by rewrite enough_rounds_eq, Hlen. }
  destruct (generate_fold random_choice (λ _, True) (λ _, I)
              num_dishes [] rng eq_refl (Forall_nil_2 _)) as [Hid _].
  rewrite (done_completed_objects _ _ _ Hn).
  split; [by rewrite Hn, (done_count _ _ _ Hn), Hlen|].
  rewrite <- !list_fmap_compose. repeat split.
  - exact Hid.
  - apply Forall_fmap, Forall_true. done.
Qed.

Lemma X14_witness :
  coord (final (parallel_generate_dishes cycling_choice 2 0).1
           (round_robin (42 * 2 + 30))) = CDone 2 ∧
  dish_id <$> completed_objects
                (final (parallel_generate_dishes cycling_choice 2 0).1
                   (round_robin (42 * 2 + 30))) = seq 1 2.
Proof.
  pose proof (X14_generated_dishes_through_pipeline cycling_choice 2 0
                (round_robin (42 * 2 + 30)) (round_robin_fair _))
    as (H1 & H2 & _).
  split; [exact H1|exact H2].
Defined.

(** ** When the metrics raise *)



(** ** [quick_test] *)

Lemma sequential_metrics_cases n elapsed_time :
  sequential_metrics n elapsed_time = raise ZeroDivisionError ∨
  ∃ throughput avg_time_per_dish,
    sequential_metrics n elapsed_time =
    inr [("execution_time", VFloat elapsed_time);
         ("throughput", throughput);
         ("avg_time_per_dish", avg_time_per_dish);
         ("dishes_processed", VInt n)].
Proof.
  unfold sequential_metrics, truediv.
  destruct (is_zero (VFloat elapsed_time)); [by left|].
  destruct (is_zero (VInt n)); [by left|].
  right. by eexists _, _.
Qed.

Lemma parallel_metrics_cases n elapsed_time m :
  parallel_metrics n elapsed_time m = raise ZeroDivisionError ∨
  ∃ throughput avg_time_per_dish,
    parallel_metrics n elapsed_time m =
    inr [("execution_time", VFloat elapsed_time);
         ("throughput", throughput);
         ("avg_time_per_dish", avg_time_per_dish);
         ("dishes_processed", VInt (Z.of_nat m))].
Proof.
  unfold parallel_metrics, truediv.
  destruct (is_zero (VFloat elapsed_time)); [by left|].
  destruct (0 <? m); [destruct (is_zero (VInt (Z.of_nat m))); [by left|]|];
    (destruct (is_zero (VInt n)); [by left|]);
    right; by eexists _, _.
Qed.

(** X16: [quick_test] under a fair schedule of 870 rounds, with clocks that
    show some elapsed time for both runs: both runs return their metrics,
    both dicts have the key execution_time, and the speedup is the quotient
    of the two times. *)
Theorem X16_quick_test_speedup {Rng}
    (random_choice : Rng → list string → string * Rng)
    (random_seed : Z → Rng) sched e_seq e_par :
  fair 870 sched → ¬ (e_seq == 0)%Q → ¬ (e_par == 0)%Q →
  quick_test random_choice random_seed sched e_seq e_par =
  Some (inr (VFloat (e_seq / e_par))).
Proof.
  intros Hfair Hs Hp. unfold quick_test.
  rewrite init_dishes_same.
  pose proof (init_dishes_length random_choice 20 (random_seed 42%Z))
    as Hlen.
  destruct (ParallelDishwasher_init random_choice 20 (random_seed 42%Z))
    as [ds rng']. cbn [fst snd] in *.
  change (Z.to_nat 20) with 20 in Hlen.
  unfold process_sequential. cbn [snd].
  rewrite sequential_metrics_nonempty by (done || lia).
  destruct (run_completes ds sched) as [n Hn].
  { by rewrite enough_rounds_eq, Hlen. }
  rewrite (process_parallel_done _ _ _ _ _ Hn), Hlen.
  rewrite (parallel_metrics_nonempty 20) by (done || lia).
  unfold subscript. cbn [dict_get String.eqb Ascii.eqb Bool.eqb].
  unfold truediv. by rewrite is_zero_float_nonzero.
Qed.

Lemma X16_witness :
  quick_test cycling_choice Z.to_nat (round_robin 870) 16 4 =
  Some (inr (VFloat (16 / 4))).
Proof.
  apply (X16_quick_test_speedup cycling_choice Z.to_nat (round_robin 870)
           16 4).
  - apply round_robin_fair.
  - intros H. vm_compute in H. discriminate H.
  - intros H. vm_compute in H. discriminate H.
Defined.

(** X17: the outcomes of [quick_test], whatever the schedule and the
    clocks: the speedup, which is the quotient of the two times, or the
    ZeroDivisionError of a run or of the speedup itself (or the schedule
    ends before the parallel run is through).  It never fails on a missing
    key: the two subscripts ["execution_time"] find their key. *)
Theorem X17_quick_test_outcomes {Rng}
    (random_choice : Rng → list string → string * Rng)
    (random_seed : Z → Rng) sched e_seq e_par :
  quick_test random_choice random_seed sched e_seq e_par = None ∨
  quick_test random_choice random_seed sched e_seq e_par =
    Some (inl (Raised ZeroDivisionError)) ∨
  quick_test random_choice random_seed sched e_seq e_par =
    Some (inr (VFloat (e_seq / e_par))).
Proof.
  unfold quick_test.
  destruct (SequentialDishwasher_init random_choice 20 (random_seed 42%Z))
    as [sds r1].
  destruct (ParallelDishwasher_init random_choice 20 (random_seed 42%Z))
    as [pds r2].
  unfold process_sequential, process_parallel. cbn [snd].
  destruct (sequential_metrics_cases 20 e_seq)
    as [->|(t1 & a1 & ->)]; [by right; left|].
  destruct (coord (final pds sched)) as [| | | | | |n]; try by left.
  destruct (parallel_metrics_cases 20 e_par n)
    as [->|(t2 & a2 & ->)]; [by right; left|].
  unfold subscript. cbn [dict_get String.eqb Ascii.eqb Bool.eqb].
  unfold truediv. destruct (is_zero (VFloat e_par)); [by right; left|].
  by right; right.
Qed.

(** ** What a join establishes *)

Lemma inv_drained_upto ds s tr k :
  Inv ds (s, tr) → drained (coord s) k = true →
  ∀ j, stage_index j ≤ stage_index k →
       queue (queues s j) = [] ∧ held (workers s j) = [] ∧
       status_set j tr = seq 0 (length ds).
Proof.
  intros Hinv Hd. pose proof (inv_flow _ _ Hinv) as Hf.
  assert (∀ j, stage_index j ≤ stage_index k →
               queue (queues s j) = [] ∧ held (workers s j) = [] ∧
               handed_on j tr = enqueued j tr) as Hdr.
  { intros j Hj.
    pose proof (ctl_drained _ _ (inv_ctl _ _ Hinv) j
                  (drained_mono _ _ _ Hj Hd)) as H0. simpl in H0.
    by pose proof (flow_drained _ _ _ j Hf H0) as (? & ? & _ & _ & ? & _). }
  assert (enqueued PreRinse tr = seq 0 (length ds)) as H1.
  { pose proof (flow_fed _ _ Hf) as Hfed. simpl in Hfed. rewrite Hfed.
    f_equal. by destruct (coord s). }
  assert (∀ j, stage_index j ≤ stage_index k →
               enqueued j tr = seq 0 (length ds)) as Henq.
  { intros j Hj. destruct j; simpl in Hj; [done|..].
    - destruct (Hdr PreRinse) as (_ & _ & Hp); [simpl; lia|].
      unfold handed_on in Hp. simpl in Hp. congruence.
    - destruct (Hdr PreRinse) as (_ & _ & Hp); [simpl; lia|].
      destruct (Hdr Wash) as (_ & _ & Hw); [simpl; lia|].
      unfold handed_on in Hp, Hw. simpl in Hp, Hw. congruence.
    - destruct (Hdr PreRinse) as (_ & _ & Hp); [simpl; lia|].
      destruct (Hdr Wash) as (_ & _ & Hw); [simpl; lia|].
      destruct (Hdr Dry) as (_ & _ & Hy); [simpl; lia|].
      unfold handed_on in Hp, Hw, Hy. simpl in Hp, Hw, Hy. congruence. }
  intros j Hj. destruct (Hdr j Hj) as (Hq & Hh & Hho).
  split; [done|]. split; [done|].
  pose proof (flow_status _ _ Hf j) as Hs. simpl in Hs.
  rewrite Hs, Hho, (Henq j Hj).
  destruct (workers s j); simpl in *; try done; by rewrite app_nil_r.
Qed.

(** X18: what the return of [queue_k.join()] establishes, and no more: the
    queue of stage [k] and of every stage before it is empty, their workers
    hold no dish, and every dish has been written by these stages, so that
    its status is that of stage [k] or of a later stage. *)
Theorem X18_join_means_stage_done ds sched k :
  drained (coord (final ds sched)) k = true →
  (∀ j, stage_index j ≤ stage_index k →
        queue (queues (final ds sched) j) = [] ∧
        held (workers (final ds sched) j) = [] ∧
        status_set j (history ds sched) = seq 0 (length ds)) ∧
  ∀ d x, dishes (final ds sched) !! d = Some x →
         ∃ j, stage_index k ≤ stage_index j ∧ status x = target_status j.
Proof.
  intros Hd. pose proof (inv_run ds sched) as Hinv.
  rewrite run_final_history in Hinv.
  pose proof (inv_drained_upto _ _ _ _ Hinv Hd) as Hup.
  split; [done|]. intros d x Hx.
  pose proof (inv_flow _ _ Hinv) as Hf.
  assert (d < length ds) as Hlt.
  { rewrite <- (flow_len _ _ Hf). simpl. by eapply lookup_lt_Some. }
  destruct (lookup_lt_is_Some_2 ds d Hlt) as [x0 Hx0].
  pose proof (status_passed _ _ _ _ _ (inv_status _ _ Hinv) Hx0) as Hst.
  rewrite Hx in Hst. simpl in Hst. injection Hst as ->.
  pose proof (flow_status_mono _ _ _ PreRinse Wash Hf eq_refl).
  pose proof (flow_status_mono _ _ _ Wash Dry Hf eq_refl).
  pose proof (flow_status_mono _ _ _ Dry Store Hf eq_refl).
  destruct (Hup k (le_n _)) as (_ & _ & Hk).
  apply (f_equal length) in Hk. rewrite length_seq in Hk.
  unfold stages_passed, all_stages. rewrite !filter_cons, filter_nil.
  destruct k; simpl in *;
    repeat (case_decide; try (exfalso; lia)); simpl;
    first [ by exists Store; split; [simpl; lia|]
          | by exists Dry; split; [simpl; lia|]
          | by exists Wash; split; [simpl; lia|]
          | by exists PreRinse; split; [simpl; lia|] ].
Qed.

Lemma X18_witness :
  queue (queues (final demo_dishes (round_robin 26)) PreRinse) = [] ∧
  held (workers (final demo_dishes (round_robin 26)) PreRinse) = [] ∧
  status_set PreRinse (history demo_dishes (round_robin 26)) =
    seq 0 (length demo_dishes).
Proof.
  assert (drained (coord (final demo_dishes (round_robin 26))) Wash = true)
    as H by (vm_compute; reflexivity).
  apply (proj1 (X18_join_means_stage_done demo_dishes (round_robin 26) Wash H)
           PreRinse).
  simpl. lia.
Defined.
